(** * Binary combinatorial generator: the TLV file enumerator of [main.py]

    The program enumerates every file of a fixed-header Tag-Length-Value
    format by a depth-first traversal that fills one shared [bytearray] and
    yields a [bytes] copy of its prefix at every leaf.

    Python values are embedded as follows.
    - an [int] is a [Z]; a byte is a [Z] in [0, 256);
    - a [bytes], [bytearray] or tuple of ints is a [list Z];
    - objects live in a store ([heap]), addressed by [loc]; the generator
      instance holds the address of its buffer, and every yielded file is
      the address of a newly allocated object;
    - a Python generator is a resumption ([Gen]): it has returned, raised,
      or is suspended at a [yield] with the rest of its body waiting for
      the store it will be resumed in. *)

From Stdlib Require Import ZArith List Lia Sorted Ascii.
From stdpp Require Import base list strings pretty gmap.
Import ListNotations.

Local Open Scope Z_scope.

(** ** Python primitives *)

Section Primitives.

(** [range(n)] *)
Definition range (n : nat) : list Z := map Z.of_nat (seq 0 n).

(** [itertools.product(pool, repeat=n)], after the reference code of the
    library documentation:
<<
    result = [[]]
    for pool in pools:
        result = [x+[y] for x in result for y in pool]
>>  *)
Fixpoint product_loop (pool : list Z) (n : nat) (result : list (list Z))
  : list (list Z) :=
  match n with
  | O => result
  | S n' =>
      product_loop pool n'
        (flat_map (fun x => map (fun y => x ++ [y]) pool) result)
  end.

Definition product (pool : list Z) (repeat : nat) : list (list Z) :=
  product_loop pool repeat [[]].

(** [bytes(ints)]: [ValueError] unless every item is in [range(256)]. *)
Definition is_byte (x : Z) : bool := (0 <=? x) && (x <? 256).

Definition py_bytes (ints : list Z) : option (list Z) :=
  if forallb is_byte ints then Some ints else None.

(** [struct.pack('<I', v)] *)
Definition pack_le32 (v : Z) : list Z :=
  [ Z.land v 255;
    Z.land (Z.shiftr v 8) 255;
    Z.land (Z.shiftr v 16) 255;
    Z.land (Z.shiftr v 24) 255 ].

Definition Zlen (b : list Z) : Z := Z.of_nat (length b).

(** Slice index adjustment (step 1): negative indices count from the
    end, and everything is clamped to [0, len]. *)
Definition adjust (len i : Z) : Z :=
  if i <? 0 then Z.max 0 (i + len) else Z.min i len.

Definition slice_start (b : list Z) (lo : Z) : Z := adjust (Zlen b) lo.

Definition slice_stop (b : list Z) (lo hi : Z) : Z :=
  Z.max (slice_start b lo) (adjust (Zlen b) hi).

(** [b[lo:hi]] *)
Definition getslice (b : list Z) (lo hi : Z) : list Z :=
  take (Z.to_nat (slice_stop b lo hi - slice_start b lo))
       (drop (Z.to_nat (slice_start b lo)) b).

(** [b[lo:hi] = v] on a bytearray: the slice is replaced by [v], whatever
    the two lengths are, so the array grows when [v] is longer than the
    (clamped) slice.  A list has no size limit, where a bytearray raises
    [MemoryError] beyond the largest object of the platform: the
    properties that let the buffer grow bound its length. *)
Definition setslice (b : list Z) (lo hi : Z) (v : list Z) : list Z :=
  take (Z.to_nat (slice_start b lo)) b ++ v
    ++ drop (Z.to_nat (slice_stop b lo hi)) b.

End Primitives.

Arguments range : simpl never.

(** ** Exceptions, store and generators *)

Inductive exn : Type :=
| ValueError      (* byte must be in range(0, 256) *)
| IndexError      (* index out of range *)
| RecursionError. (* the recursion never reaches its base case *)

Abbreviation loc := nat (only parsing).
Abbreviation heap := (list (list Z)) (only parsing).

(** [b[i] = v] on a bytearray: the value is checked first ([ValueError]
    unless it is in [range(256)]), then the index, a negative one counting
    from the end ([IndexError] outside the array). *)
Definition setitem (b : list Z) (i v : Z) : exn + list Z :=
  if is_byte v then
    let i' := if i <? 0 then i + Zlen b else i in
    if (i' <? 0) || (Zlen b <=? i') then inl IndexError
    else inr (<[Z.to_nat i' := v]> b)
  else inl ValueError.

(** Allocation of a new object. *)
Definition alloc (h : heap) (v : list Z) : loc * heap :=
  (length h, h ++ [v]).

(** A generator that has been run up to its next stop, in the store it
    stopped in: it has returned, it has raised, or it is suspended at a
    [yield] of the object at [r] and goes on as [k], from the store it is
    resumed in. *)
Inductive Gen : Type :=
| Done (h : heap)
| Raise (e : exn) (h : heap)
| Yield (r : loc) (h : heap) (k : heap -> Gen).

(** Sequencing: run [g], then [k] in the store [g] leaves. *)
Fixpoint then_ (g : Gen) (k : heap -> Gen) : Gen :=
  match g with
  | Done h => k h
  | Raise e h => Raise e h
  | Yield r h k' => Yield r h (fun h' => then_ (k' h') k)
  end.

(** [for x in xs: body] *)
Fixpoint for_each {A : Type} (xs : list A) (body : A -> heap -> Gen)
  (h : heap) : Gen :=
  match xs with
  | [] => Done h
  | x :: xs' => then_ (body x h) (for_each xs' body)
  end.

(** ** class Initializer *)

Definition sample_init : list (list Z) := product (range 256) 2.

Definition byte_array_init : list Z := replicate (Z.to_nat 65540) 0.

Definition get_magic : list Z := pack_le32 0xFEE1900D.

(** ** class Generator *)

Record Generator : Type := {
  tl_pairs : list (list Z);
  buffer : loc;
  magic : list Z
}.

(** [Generator()]: the buffer is the one object of the instance that is
    ever written, and the one that is placed in the store. *)
Definition Generator_init (h : heap) : Generator * heap :=
  let '(b, h') := alloc h byte_array_init in
  ({| tl_pairs := sample_init; buffer := b; magic := get_magic |}, h').

(** Contents of [self.buffer], and its in-place replacement. *)
Definition buf (self : Generator) (h : heap) : list Z := h !!! buffer self.

Definition buf_set (self : Generator) (h : heap) (b : list Z) : heap :=
  <[buffer self := b]> h.

(** The body of [dfs].  [bytes(self.buffer[:offset])] is a new object that
    holds a copy of the slice; the two loops are [for_each]; [continue]
    is the end of the first branch of [if length == 0].

    [fuel] bounds the recursion depth.  [dfs] below starts it at
    [total_sections - current_sec_idx], the depth at which the base case
    is reached, so it runs out only when the call starts with
    [current_sec_idx > total_sections]: there Python descends until its
    recursion limit, which the [RecursionError] branch stands for (the
    store of that branch is not the one Python would leave).

    The interpreter's recursion limit (1000 frames unless it is changed)
    is not part of the model, which therefore follows Python only while
    [total_sections - current_sec_idx] stays below it: in every property
    below, a traversal has at most 255 sections to go. *)
Fixpoint dfs_rec (self : Generator) (fuel : nat)
  (current_sec_idx total_sections offset : Z) (h : heap) {struct fuel} : Gen :=
  if current_sec_idx =? total_sections then
    let '(r, h) := alloc h (getslice (buf self h) 0 offset) in
    Yield r h Done
  else
    match fuel with
    | O => Raise RecursionError h
    | S fuel' =>
      for_each (tl_pairs self) (fun tl h =>
        match tl !! 1%nat with
        | None => Raise IndexError h
        | Some length =>
          match py_bytes tl with
          | None => Raise ValueError h
          | Some tl_bytes =>
            let h :=
              buf_set self h
                (setslice (buf self h) offset (offset + 2) tl_bytes) in
            if length =? 0 then
              dfs_rec self fuel' (current_sec_idx + 1) total_sections
                (offset + 2) h
            else
              for_each (product (range 256) (Z.to_nat length)) (fun value h =>
                match py_bytes value with
                | None => Raise ValueError h
                | Some value_bytes =>
                  let h :=
                    buf_set self h
                      (setslice (buf self h) (offset + 2)
                         (offset + 2 + length) value_bytes) in
                  let new_offset := offset + 2 + length in
                  dfs_rec self fuel' (current_sec_idx + 1) total_sections
                    new_offset h
                end) h
          end
        end) h
    end.

Definition dfs (self : Generator) (current_sec_idx total_sections offset : Z)
  (h : heap) : Gen :=
  dfs_rec self (Z.to_nat (total_sections - current_sec_idx))
    current_sec_idx total_sections offset h.

Definition generate_all (self : Generator) (total_sections : Z) (h : heap)
  : Gen :=
  let h := buf_set self h (setslice (buf self h) 0 4 (magic self)) in
  match setitem (buf self h) 4 total_sections with
  | inl e => Raise e h
  | inr b =>
      let h := buf_set self h b in
      dfs self 0 total_sections 5 h
  end.

(** ** Driving a generator

    The consumer of the program ([Runner.run]) pulls files one at a time and
    leaves the store alone between two pulls. *)

Inductive outcome : Type :=
| Returned
| Raised (e : exn).

(** Everything a generator does when it is pulled until it stops: the
    yields, each with the store at that moment, and how and in which store
    it ended. *)
Fixpoint drain (g : Gen) : list (loc * heap) * (outcome * heap) :=
  match g with
  | Done h => ([], (Returned, h))
  | Raise e h => ([], (Raised e, h))
  | Yield r h k => let res := drain (k h) in ((r, h) :: fst res, snd res)
  end.

(** The first [n] pulls. *)
Fixpoint pulls (n : nat) (g : Gen) : list (loc * heap) :=
  match n, g with
  | S n', Yield r h k => (r, h) :: pulls n' (k h)
  | _, _ => []
  end.

(** The store after [n] pulls of a generator created in store [h]: nothing
    of the body runs before the first pull. *)
Fixpoint store_after_pulls (n : nat) (g : Gen) (h : heap) : heap :=
  match n with
  | O => h
  | S n' =>
      match g with
      | Done h' => h'
      | Raise _ h' => h'
      | Yield _ h' k => store_after_pulls n' (k h') h'
      end
  end.

(** The bytes of a yielded file, read in the store it was yielded in. *)
Definition file_bytes (p : loc * heap) : list Z := snd p !!! fst p.

Definition emitted (g : Gen) : list (list Z) := map file_bytes (fst (drain g)).

(** ** The file system, standard output and [class Runner] *)

(** What a path names: a directory or a regular file.  Symbolic links,
    permissions and the space left on the device are not modelled. *)
Inductive node : Type :=
| Dir
| File (data : list Z).

Inductive os_error : Type :=
| FileNotFoundError
| NotADirectoryError
| IsADirectoryError
| FileExistsError.

(** The directory part of a path: what is before its last ["/"], if it has
    one. *)
Fixpoint dirname (path : string) : option string :=
  match path with
  | EmptyString => None
  | String c rest =>
      match dirname rest with
      | Some d => Some (String c d)
      | None => if Ascii.eqb c "/"%char then Some EmptyString else None
      end
  end.

(** [os.path.exists(path)] *)
Definition path_exists (fs : gmap string node) (path : string) : bool :=
  bool_decide (is_Some (fs !! path)).

(** [os.makedirs(path)] for a path of one component, as here:
    [FileExistsError] when the path names something already. *)
Definition makedirs (fs : gmap string node) (path : string)
  : os_error + gmap string node :=
  match fs !! path with
  | Some _ => inl FileExistsError
  | None => inr (<[path := Dir]> fs)
  end.

(** [with open(path, 'wb') as f: f.write(data)]: the directory of the path
    has to be there, and the path must not name a directory; the file is
    created or replaced. *)
Definition write_file (fs : gmap string node) (path : string) (data : list Z)
  : os_error + gmap string node :=
  let parent :=
    match dirname path with
    | None | Some EmptyString => Some Dir
    | Some d => fs !! d
    end in
  match parent with
  | None => inl FileNotFoundError
  | Some (File _) => inl NotADirectoryError
  | Some Dir =>
      match fs !! path with
      | Some Dir => inl IsADirectoryError
      | _ => inr (<[path := File data]> fs)
      end
  end.

(** Everything the program acts on: the objects, the files, and the lines
    printed. *)
Record World : Type := {
  store : heap;
  files : gmap string node;
  stdout : list string
}.

Inductive raised : Type :=
| Exn (e : exn)
| OsExn (e : os_error).

(** How a call ends, and the world it leaves. *)
Inductive result : Type :=
| Ok (w : World)
| Err (e : raised) (w : World).

Record Runner : Type := {
  generator : Generator
}.

(** [Runner(generator)] *)
Definition Runner_init (generator : Generator) (fs : gmap string node)
  : os_error + (Runner * gmap string node) :=
  if negb (path_exists fs "output") then
    match makedirs fs "output" with
    | inl e => inl e
    | inr fs' => inr ({| generator := generator |}, fs')
    end
  else inr ({| generator := generator |}, fs).

(** The f-string of [save].  Neither the limit of Python on the digits of
    a printed integer (4300) nor that of the file system on the length of
    a name (255 bytes) is modelled: the properties below use it for
    counts and indexes of at most 18 digits. *)
Definition filename (count idx : Z) : string :=
  "output/file_" +:+ pretty count +:+ "_sec_" +:+ pretty idx +:+ ".bin".

(** [save]: [buffer] is the address of the bytes to write. *)
Definition save (self : Runner) (buffer : loc) (count idx : Z) (h : heap)
  (fs : gmap string node) : os_error + gmap string node :=
  write_file fs (filename count idx) (h !!! buffer).

(** The inner loop of [run], over the generator [g], from [file_idx] on:
    [break] after the tenth file leaves the generator suspended. *)
Fixpoint for_files (self : Runner) (count file_idx : Z) (g : Gen) (w : World)
  : result :=
  match g with
  | Done h => Ok {| store := h; files := files w; stdout := stdout w |}
  | Raise e h =>
      Err (Exn e) {| store := h; files := files w; stdout := stdout w |}
  | Yield file_buffer h k =>
      match save self file_buffer count file_idx h (files w) with
      | inl e =>
          Err (OsExn e) {| store := h; files := files w; stdout := stdout w |}
      | inr fs =>
          let file_idx := file_idx + 1 in
          let w := {| store := h; files := fs; stdout := stdout w |} in
          if 10 <=? file_idx then Ok w
          else for_files self count file_idx (k h) w
      end
  end.

(** [print(line)] *)
Definition print (line : string) (w : World) : World :=
  {| store := store w; files := files w; stdout := stdout w ++ [line] |}.

(** The outer loop of [run]. *)
Fixpoint for_counts (self : Runner) (counts : list Z) (w : World) : result :=
  match counts with
  | [] => Ok w
  | count :: rest =>
      let w := print ("generating for " +:+ pretty count +:+ " sections") w in
      let file_idx := 0 in
      match
        for_files self count file_idx
          (generate_all (generator self) count (store w)) w
      with
      | Ok w' => for_counts self rest w'
      | Err e w' => Err e w'
      end
  end.

Definition run (self : Runner) (w : World) : result :=
  for_counts self (range 256) w.

(** The entry point. *)
Definition main (w : World) : result :=
  let '(gen, h) := Generator_init (store w) in
  match Runner_init gen (files w) with
  | inl e =>
      Err (OsExn e) {| store := h; files := files w; stdout := stdout w |}
  | inr (runner, fs) =>
      run runner {| store := h; files := fs; stdout := stdout w |}
  end.

(** * Specification

    The format and the order of the files, as the specification words
    them, and the vocabulary of the properties. *)

(** The header of the format: the magic [0D 90 E1 FE], then the section
    count. *)
Definition header (n : Z) : list Z := [0x0D; 0x90; 0xE1; 0xFE; n].

(** The buffer capacity. *)
Definition capacity : Z := 65540.

(** What [Generator()] establishes and every traversal keeps. *)
Definition well_formed (self : Generator) (h : heap) : Prop :=
  tl_pairs self = sample_init
  /\ magic self = get_magic
  /\ (buffer self < length h)%nat
  /\ Zlen (buf self h) = capacity.

(** A section of the format. *)
Record TlvSection : Type := {
  tag : Z;
  len : Z;
  value : list Z
}.

(** A section: one tag byte, one length byte, exactly [len] value bytes. *)
Definition section_ok (s : TlvSection) : Prop :=
  0 <= tag s < 256
  /\ 0 <= len s < 256
  /\ Zlen (value s) = len s
  /\ Forall (fun x => 0 <= x < 256) (value s).

(** The bytes of a section and of a file. *)
Definition encode_section (s : TlvSection) : list Z :=
  tag s :: len s :: value s.

Definition encode_file (n : Z) (ss : list TlvSection) : list Z :=
  header n ++ flat_map encode_section ss.

(** Odometer order over [n] bytes: the first byte varies slowest. *)
Fixpoint odometer (n : nat) : list (list Z) :=
  match n with
  | O => [[]]
  | S n' => flat_map (fun x => map (cons x) (odometer n')) (range 256)
  end.

(** The [n] digits of [k] in base 256, most significant first: what an
    [n]-byte odometer shows after [k] steps. *)
Fixpoint be_digits (n : nat) (k : Z) : list Z :=
  match n with
  | O => []
  | S n' => k / 256 ^ Z.of_nat n' :: be_digits n' (k mod 256 ^ Z.of_nat n')
  end.

(** The catalog of (tag, length) pairs: tag outer loop, length inner loop. *)
Definition catalog : list (Z * Z) :=
  flat_map (fun t => map (pair t) (range 256)) (range 256).

(** One section: for each catalog pair, each value in odometer order. *)
Definition all_sections : list TlvSection :=
  flat_map
    (fun tl =>
       map (Build_TlvSection (fst tl) (snd tl))
         (odometer (Z.to_nat (snd tl))))
    catalog.

(** Nested loops over [n] sections, section 0 outermost. *)
Fixpoint cross_product (n : nat) : list (list TlvSection) :=
  match n with
  | O => [[]]
  | S n' => flat_map (fun s => map (cons s) (cross_product n')) all_sections
  end.

(** The files with [n] sections, in the order of the specification. *)
Definition enumeration (n : Z) : list (list Z) :=
  map (encode_file n) (cross_product (Z.to_nat n)).

(** Sum of the section sizes of a file. *)
Definition sections_size (ss : list TlvSection) : Z :=
  fold_right (fun s acc => 2 + len s + acc) 0 ss.

(** The lexicographic order on byte strings. *)
Inductive lex_lt : list Z -> list Z -> Prop :=
| lex_lt_nil (y : Z) (b : list Z) : lex_lt [] (y :: b)
| lex_lt_head (x y : Z) (a b : list Z) : x < y -> lex_lt (x :: a) (y :: b)
| lex_lt_tail (x : Z) (a b : list Z) : lex_lt a b -> lex_lt (x :: a) (x :: b).

(** The stores in which a generator is suspended or has stopped. *)
Definition observed (g : Gen) : list heap :=
  map snd (fst (drain g)) ++ [snd (snd (drain g))].

(** The guard that C2 words: in a state where the next write would reach
    past the capacity, [dfs] stops with an error. *)
Definition fails_fast (self : Generator) (idx total off : Z) (h : heap)
  : Prop :=
  exists (e : exn) (h' : heap), dfs self idx total off h = Raise e h'.

(** A new generator in an empty store, for concrete instances. *)
Definition fresh : Generator * heap := Generator_init [].

(** The first file of the enumeration with one section, with the store it
    is yielded in. *)
Definition first_of_one : loc * heap :=
  nth 0 (pulls 1 (generate_all (fst fresh) 1 (snd fresh))) (0%nat, []).

(** * Definitions for the proofs *)

(** Two arrays that agree outside the window [[lo, hi)]. *)
Definition frame_buf (lo hi : nat) (b b' : list Z) : Prop :=
  length b' = length b /\ take lo b' = take lo b /\ drop hi b' = drop hi b.

(** [h'] extends [h]: objects were only added, every object of [h] other
    than the buffer is what it was, and the buffer has its length and
    everything outside the window [[lo, hi)]. *)
Definition heap_frame (self : Generator) (lo hi : nat) (h h' : heap) : Prop :=
  (length h <= length h')%nat
  /\ (forall l : loc,
        (l < length h)%nat -> l <> buffer self -> h' !! l = h !! l)
  /\ frame_buf lo hi (buf self h) (buf self h').

(** The stores of a trace, from [h] to [h'], extend one another, and each
    yielded address is new when it is yielded. *)
Fixpoint chain (self : Generator) (lo hi : nat) (h : heap)
  (tr : list (loc * heap)) (h' : heap) : Prop :=
  match tr with
  | [] => heap_frame self lo hi h h'
  | (r, hr) :: tr' =>
      heap_frame self lo hi h hr
      /\ (length h <= r < length hr)%nat
      /\ chain self lo hi hr tr' h'
  end.

(** [runs self lo hi g h fs h']: pulled to the end from store [h], the
    generator [g] yields files with the bytes [fs], in this order, and
    returns in store [h'], along a [chain] of stores. *)
Definition runs (self : Generator) (lo hi : nat) (g : Gen) (h : heap)
  (fs : list (list Z)) (h' : heap) : Prop :=
  exists tr,
    drain g = (tr, (Returned, h'))
    /\ map file_bytes tr = fs
    /\ chain self lo hi h tr h'.

(** A yielded file that is a copy of a prefix of the buffer, in the store
    it is yielded in. *)
Definition snapshot (self : Generator) (p : loc * heap) : Prop :=
  exists n : nat, snd p !! fst p = Some (take n (buf self (snd p))).

(** Every file that [g] yields is such a copy, and the buffer is there when
    [g] stops. *)
Definition snapshots (self : Generator) (g : Gen) : Prop :=
  Forall (snapshot self) (fst (drain g))
  /\ (buffer self < length (snd (snd (drain g))))%nat.

(** [h'] comes after [h] in a traversal that may outgrow the buffer: no
    object was removed, and the buffer has its bytes below [lo], has not
    become shorter, and has at most [hi] bytes unless it had more. *)
Definition heap_grows (self : Generator) (lo hi : nat) (h h' : heap) : Prop :=
  (length h <= length h')%nat
  /\ (length (buf self h) <= length (buf self h')
      <= Nat.max (length (buf self h)) hi)%nat
  /\ take lo (buf self h') = take lo (buf self h).

(** [grows self lo hi g h fs h']: pulled to the end from store [h], the
    generator [g] yields files with the bytes [fs], in this order, and
    returns in store [h']; every store it is suspended in, and [h'], comes
    after [h]. *)
Definition grows (self : Generator) (lo hi : nat) (g : Gen) (h : heap)
  (fs : list (list Z)) (h' : heap) : Prop :=
  exists tr,
    drain g = (tr, (Returned, h'))
    /\ map file_bytes tr = fs
    /\ Forall (fun p => heap_grows self lo hi h (snd p)) tr
    /\ heap_grows self lo hi h h'.

(** What one more section, for the pair [tl], puts before each of [rest],
    in the order of the loops of [dfs]. *)
Definition sections_of (tl : list Z) (rest : list (list Z)) : list (list Z) :=
  match tl !! 1%nat with
  | None => []
  | Some length =>
      if length =? 0 then map (app tl) rest
      else
        flat_map (fun value => map (app (tl ++ value)) rest)
          (product (range 256) (Z.to_nat length))
  end.

(** What [n] sections append to the prefix already in the buffer, in the
    order of the loops of [dfs]. *)
Fixpoint tails (n : nat) : list (list Z) :=
  match n with
  | O => [[]]
  | S n' => flat_map (fun tl => sections_of tl (tails n')) sample_init
  end.

(** [a] is below [b] at the first position where they differ (neither is a
    prefix of the other). *)
Definition diff_lt (a b : list Z) : Prop :=
  exists p x y a' b', a = p ++ x :: a' /\ b = p ++ y :: b' /\ x < y.

(** Tag first, then length. *)
Definition pair_lt (p q : Z * Z) : Prop :=
  fst p < fst q \/ (fst p = fst q /\ snd p < snd q).

(** The same order on sections and on lists of sections, through their
    bytes. *)
Definition section_lt (s s' : TlvSection) : Prop :=
  diff_lt (encode_section s) (encode_section s').

Definition sections_lt (ss ss' : list TlvSection) : Prop :=
  diff_lt (flat_map encode_section ss) (flat_map encode_section ss').

(** ** Vocabulary of the runner's properties *)



(** The line that [run] prints for [count]. *)
Definition progress_line (count : Z) : string :=
  "generating for " +:+ pretty count +:+ " sections".

(** What [run] saves for [count]: at most ten files, the first of the
    enumeration. *)
Definition saved (count : Z) : list (list Z) := take 10 (enumeration count).

(** A character of a printed integer: a digit or the sign. *)
Definition numeric_char (c : ascii) : bool :=
  match c with
  | "0" | "1" | "2" | "3" | "4" | "5" | "6" | "7" | "8" | "9" | "-" => true
  | _ => false
  end%char.

Fixpoint numeric (s : string) : bool :=
  match s with
  | EmptyString => true
  | String c s' => numeric_char c && numeric s'
  end.


(** The number of sections of the format. *)
Definition section_count : Z := 256 * (256 ^ 256 - 1) / 255.


Definition fresh_runner : Runner := {| generator := fst fresh |}.


Definition blocked_world : World :=
  {| store := []; files := {["output"%string := File [1]]}; stdout := [] |}.

(** * Verification *)

(** ** Slices that stay inside the array *)

Section SliceFacts.

Implicit Types b v : list Z.

Lemma getslice_prefix b (hi : Z) :
  0 <= hi <= Zlen b -> getslice b 0 hi = take (Z.to_nat hi) b.
Proof.
  intros Hhi. unfold getslice, slice_stop, slice_start, adjust, Zlen in *.
  destruct (Z.ltb_spec hi 0); [lia|].
  change (0 <? 0) with false. cbv iota.
  rewrite !Z.min_l, Z.max_r by lia. rewrite drop_0. f_equal. lia.
Qed.

Lemma setslice_inplace b (lo hi : Z) v :
  0 <= lo -> lo <= hi -> hi <= Zlen b ->
  setslice b lo hi v = take (Z.to_nat lo) b ++ v ++ drop (Z.to_nat hi) b.
Proof.
  intros Hlo Hle Hhi.
  unfold setslice, slice_stop, slice_start, adjust, Zlen in *.
  destruct (Z.ltb_spec lo 0), (Z.ltb_spec hi 0); try lia.
  rewrite !Z.min_l, Z.max_r by lia. reflexivity.
Qed.

Lemma frame_buf_refl (lo hi : nat) b : frame_buf lo hi b b.
Proof. repeat split. Qed.

Lemma frame_buf_trans (lo hi : nat) b1 b2 b3 :
  frame_buf lo hi b1 b2 -> frame_buf lo hi b2 b3 -> frame_buf lo hi b1 b3.
Proof. intros (?&?&?) (?&?&?). repeat split; congruence. Qed.

Lemma frame_buf_mono (lo hi lo' hi' : nat) b b' :
  (lo' <= lo)%nat -> (hi <= hi')%nat ->
  frame_buf lo hi b b' -> frame_buf lo' hi' b b'.
Proof.
  intros Hlo Hhi (Hlen & Ht & Hd). repeat split; [assumption| |].
  - replace lo' with (Nat.min lo' lo) by lia.
    rewrite <- !take_take. congruence.
  - replace hi' with (hi + (hi' - hi))%nat by lia.
    rewrite <- !drop_drop. congruence.
Qed.

Lemma setslice_frame b (lo hi : Z) v :
  0 <= lo -> Zlen v = hi - lo -> hi <= Zlen b ->
  frame_buf (Z.to_nat lo) (Z.to_nat hi) b (setslice b lo hi v).
Proof.
  intros Hlo Hv Hhi. unfold Zlen in *.
  rewrite setslice_inplace by (unfold Zlen; lia).
  assert (Hl : length (take (Z.to_nat lo) b) = Z.to_nat lo)
    by (rewrite length_take; lia).
  repeat split.
  - rewrite !length_app, Hl, length_drop. lia.
  - rewrite take_app_length' by (symmetry; exact Hl). reflexivity.
  - rewrite app_assoc, drop_app_length'; [reflexivity|].
    rewrite length_app, Hl. lia.
Qed.

Lemma setslice_prefix b (lo hi : Z) v :
  0 <= lo -> Zlen v = hi - lo -> hi <= Zlen b ->
  take (Z.to_nat hi) (setslice b lo hi v) = take (Z.to_nat lo) b ++ v.
Proof.
  intros Hlo Hv Hhi. unfold Zlen in *.
  rewrite setslice_inplace by (unfold Zlen; lia).
  rewrite app_assoc. apply take_app_length'.
  rewrite length_app, length_take. lia.
Qed.

End SliceFacts.

(** ** Stores along a traversal *)

Section Frames.

Variable self : Generator.

Lemma heap_frame_refl lo hi h : heap_frame self lo hi h h.
Proof. repeat split; auto. Qed.

Lemma heap_frame_trans lo hi h1 h2 h3 :
  heap_frame self lo hi h1 h2 -> heap_frame self lo hi h2 h3 ->
  heap_frame self lo hi h1 h3.
Proof.
  intros (L1 & O1 & B1) (L2 & O2 & B2). split; [lia|]. split.
  - intros l Hl Hne. rewrite O2 by (auto; lia). auto.
  - eapply frame_buf_trans; eassumption.
Qed.

Lemma heap_frame_mono lo hi lo' hi' h h' :
  (lo' <= lo)%nat -> (hi <= hi')%nat ->
  heap_frame self lo hi h h' -> heap_frame self lo' hi' h h'.
Proof.
  intros Hlo Hhi (L & O & B). repeat split; auto.
  all: eapply frame_buf_mono in B; try eassumption; apply B.
Qed.

Lemma buf_buf_set h b :
  (buffer self < length h)%nat -> buf self (buf_set self h b) = b.
Proof. intros. unfold buf, buf_set. by apply list_lookup_total_insert_eq. Qed.

Lemma alloc_frame lo hi h v :
  (buffer self < length h)%nat -> heap_frame self lo hi h (h ++ [v]).
Proof.
  intros Hb. split; [rewrite length_app; lia|]. split.
  - intros l Hl _. by apply lookup_app_l.
  - unfold buf. rewrite lookup_total_app_l by assumption.
    apply frame_buf_refl.
Qed.

Lemma buf_set_frame lo hi h b :
  (buffer self < length h)%nat ->
  frame_buf lo hi (buf self h) b ->
  heap_frame self lo hi h (buf_set self h b).
Proof.
  intros Hb Hf. split; [unfold buf_set; rewrite length_insert; lia|]. split.
  - intros l Hl Hne. unfold buf_set. by apply list_lookup_insert_ne.
  - by rewrite buf_buf_set.
Qed.

Lemma chain_frame lo hi tr : forall h h',
  chain self lo hi h tr h' -> heap_frame self lo hi h h'.
Proof.
  induction tr as [|[r hr] tr IH]; intros h h'; simpl; [auto|].
  intros (F & _ & C). eapply heap_frame_trans; eauto.
Qed.

Lemma chain_pre lo hi tr h0 h h' :
  heap_frame self lo hi h0 h -> chain self lo hi h tr h' ->
  chain self lo hi h0 tr h'.
Proof.
  intros F. destruct tr as [|[r hr] tr]; simpl.
  - apply heap_frame_trans, F.
  - intros (F' & R & C). split; [eapply heap_frame_trans; eauto|].
    split; [|assumption]. destruct F as (L & _). lia.
Qed.

Lemma chain_app lo hi tr1 tr2 : forall h h1 h2,
  chain self lo hi h tr1 h1 -> chain self lo hi h1 tr2 h2 ->
  chain self lo hi h (tr1 ++ tr2) h2.
Proof.
  induction tr1 as [|[r hr] tr1 IH]; intros h h1 h2; simpl.
  - intros F C. eapply chain_pre; eauto.
  - intros (F & R & C1) C2. eauto.
Qed.

Lemma chain_mono lo hi lo' hi' tr :
  (lo' <= lo)%nat -> (hi <= hi')%nat -> forall h h',
  chain self lo hi h tr h' -> chain self lo' hi' h tr h'.
Proof.
  intros Hlo Hhi.
  induction tr as [|[r hr] tr IH]; intros h h'; simpl.
  - by apply heap_frame_mono.
  - intros (F & R & C). eauto using heap_frame_mono.
Qed.

Lemma drain_then g k : forall tr h',
  drain g = (tr, (Returned, h')) ->
  drain (then_ g k) = (tr ++ fst (drain (k h')), snd (drain (k h'))).
Proof.
  induction g as [h|e h|r h k' IH]; intros tr h'; simpl.
  - intros [= <- <-]. by destruct (drain (k h)).
  - discriminate.
  - destruct (drain (k' h)) as [tr0 [o0 h0]] eqn:E. simpl.
    intros [= <- -> ->]. by rewrite (IH h tr0 h').
Qed.

Lemma runs_frame lo hi g h fs h' :
  runs self lo hi g h fs h' -> heap_frame self lo hi h h'.
Proof. intros (tr & _ & _ & C). eapply chain_frame, C. Qed.

Lemma runs_pre lo hi g h0 h fs h' :
  heap_frame self lo hi h0 h -> runs self lo hi g h fs h' ->
  runs self lo hi g h0 fs h'.
Proof. intros F (tr & D & M & C). exists tr. eauto using chain_pre. Qed.

Lemma runs_mono lo hi lo' hi' g h fs h' :
  (lo' <= lo)%nat -> (hi <= hi')%nat ->
  runs self lo hi g h fs h' -> runs self lo' hi' g h fs h'.
Proof. intros ? ? (tr & D & M & C). exists tr. eauto using chain_mono. Qed.

Lemma runs_then lo hi g k h fs1 h1 fs2 h2 :
  runs self lo hi g h fs1 h1 -> runs self lo hi (k h1) h1 fs2 h2 ->
  runs self lo hi (then_ g k) h (fs1 ++ fs2) h2.
Proof.
  intros (tr1 & D1 & M1 & C1) (tr2 & D2 & M2 & C2).
  exists (tr1 ++ tr2). rewrite (drain_then _ _ _ _ D1), D2. simpl.
  split; [reflexivity|]. split; [|eapply chain_app; eauto].
  rewrite map_app. congruence.
Qed.

(** The rule of the [for] loop: every pass starts in a store that extends
    the one the loop started in. *)
Lemma for_each_runs {A : Type} lo hi (body : A -> heap -> Gen)
  (out : A -> list (list Z)) (h0 : heap) (xs : list A) :
  (forall x h, In x xs -> heap_frame self lo hi h0 h ->
     exists h', runs self lo hi (body x h) h (out x) h') ->
  forall h, heap_frame self lo hi h0 h ->
    exists h', runs self lo hi (for_each xs body h) h (flat_map out xs) h'.
Proof.
  induction xs as [|x xs IH]; intros Hbody h F; simpl.
  - exists h, []. repeat split; auto.
  - destruct (Hbody x h) as (h1 & R1); [by left | assumption |].
    destruct (IH (fun y h Hy => Hbody y h (or_intror Hy)) h1) as (h2 & R2).
    { eapply heap_frame_trans; [exact F|]. eapply runs_frame, R1. }
    exists h2. eapply runs_then; eauto.
Qed.

End Frames.

(** ** [range] and [itertools.product] *)

Section Product.

Lemma in_range (n : nat) (x : Z) : In x (range n) <-> 0 <= x < Z.of_nat n.
Proof.
  unfold range. rewrite in_map_iff. split.
  - intros (i & <- & Hi). apply in_seq in Hi. lia.
  - intros Hx. exists (Z.to_nat x). split; [lia|]. apply in_seq. lia.
Qed.

Lemma flat_map_singleton {A B : Type} (f : A -> B) (l : list A) :
  flat_map (fun x => [f x]) l = map f l.
Proof. induction l; simpl; congruence. Qed.

Lemma map_flat_map {A B C : Type} (g : B -> C) (f : A -> list B) l :
  map g (flat_map f l) = flat_map (fun x => map g (f x)) l.
Proof. induction l; simpl; [|rewrite map_app]; congruence. Qed.

Lemma flat_map_flat_map {A B C : Type} (g : B -> list C) (f : A -> list B) l :
  flat_map g (flat_map f l) = flat_map (fun x => flat_map g (f x)) l.
Proof. induction l; simpl; [|rewrite flat_map_app]; congruence. Qed.

Lemma flat_map_map {A B C : Type} (g : B -> list C) (f : A -> B) l :
  flat_map g (map f l) = flat_map (fun x => g (f x)) l.
Proof. induction l; simpl; congruence. Qed.

Lemma product_loop_flat_map pool n : forall result,
  product_loop pool n result
  = flat_map (fun x => map (app x) (product pool n)) result.
Proof.
  induction n as [|n IH]; intros result.
  - simpl. rewrite (flat_map_singleton (fun x => x ++ [])).
    rewrite <- (map_id result) at 1. apply map_ext. intros x.
    by rewrite app_nil_r.
  - unfold product. simpl. rewrite app_nil_r, !IH.
    rewrite flat_map_flat_map. apply flat_map_ext. intros x.
    rewrite !flat_map_map, map_flat_map. apply flat_map_ext. intros y.
    rewrite map_map. apply map_ext. intros v. by rewrite <- app_assoc.
Qed.

(** The first item varies slowest. *)
Lemma product_S pool n :
  product pool (S n) = flat_map (fun y => map (cons y) (product pool n)) pool.
Proof.
  unfold product at 1. simpl. rewrite app_nil_r, product_loop_flat_map.
  by rewrite flat_map_map.
Qed.

Lemma product_0 pool : product pool 0 = [[]].
Proof. reflexivity. Qed.

Lemma in_product pool n : forall v,
  In v (product pool n) <-> length v = n /\ Forall (fun x => In x pool) v.
Proof.
  induction n as [|n IH]; intros v.
  - rewrite product_0. simpl. split.
    + intros [<-|[]]. by split.
    + intros [Hl _]. left. symmetry. by apply nil_length_inv.
  - rewrite product_S, in_flat_map. split.
    + intros (y & Hy & Hv). apply in_map_iff in Hv as (w & <- & Hw).
      apply IH in Hw as [<- Hw]. split; [reflexivity|by constructor].
    + intros [Hl Hall]. destruct v as [|y w]; [discriminate|].
      inversion Hall; subst. exists y. split; [assumption|].
      apply in_map, IH. split; [|assumption]. by injection Hl.
Qed.

Lemma in_sample_init tl :
  In tl sample_init
  <-> exists t l, tl = [t; l] /\ 0 <= t < 256 /\ 0 <= l < 256.
Proof.
  unfold sample_init. rewrite in_product. split.
  - intros [Hl Hall].
    destruct tl as [|t [|l [|]]]; try discriminate.
    inversion Hall as [|? ? Ht Hall']; subst.
    inversion Hall' as [|? ? Hl' _]; subst.
    apply in_range in Ht, Hl'. exists t, l. repeat split; lia.
  - intros (t & l & -> & Ht & Hl). split; [reflexivity|].
    repeat (constructor; [apply in_range; lia|]). constructor.
Qed.

Lemma py_bytes_ok (v : list Z) :
  Forall (fun x => 0 <= x < 256) v -> py_bytes v = Some v.
Proof.
  intros Hv. unfold py_bytes.
  replace (forallb is_byte v) with true; [reflexivity|].
  symmetry. apply forallb_forall. intros x Hx.
  rewrite List.Forall_forall in Hv. apply Hv in Hx. unfold is_byte. lia.
Qed.

Lemma product_range_bytes (n : nat) (v : list Z) :
  In v (product (range 256) n) ->
  length v = n /\ Forall (fun x => 0 <= x < 256) v.
Proof.
  intros [Hl Hall]%in_product. split; [assumption|].
  eapply List.Forall_impl; [|exact Hall]. intros x Hx%in_range. lia.
Qed.

End Product.

Lemma tails_S (n : nat) :
  tails (S n) = flat_map (fun tl => sections_of tl (tails n)) sample_init.
Proof. reflexivity. Qed.

(** ** The traversal *)

(** A frame, or a run, over a window follows from one over a narrower
    window. *)
Ltac widen F :=
  first [ eapply heap_frame_mono; [| |exact F]; lia
        | eapply runs_mono; [| |exact F]; lia ].

Section Traversal.

Variable self : Generator.
Hypothesis tl_pairs_self : tl_pairs self = sample_init.

Lemma heap_frame_buffer lo hi h h' :
  heap_frame self lo hi h h' ->
  ((buffer self < length h)%nat -> (buffer self < length h')%nat)
  /\ Zlen (buf self h') = Zlen (buf self h)
  /\ take lo (buf self h') = take lo (buf self h).
Proof.
  intros (L & _ & B1 & B2 & _). unfold Zlen. rewrite B1.
  repeat split; [lia | assumption].
Qed.

(** One in-place write of [v] at [off]. *)
Lemma write_step (off n : Z) (v : list Z) (h : heap) :
  (buffer self < length h)%nat -> 0 <= off -> Zlen v = n ->
  off + n <= Zlen (buf self h) ->
  heap_frame self (Z.to_nat off) (Z.to_nat (off + n)) h
    (buf_set self h (setslice (buf self h) off (off + n) v))
  /\ take (Z.to_nat (off + n))
       (buf self (buf_set self h (setslice (buf self h) off (off + n) v)))
     = take (Z.to_nat off) (buf self h) ++ v.
Proof.
  intros Hb Hoff Hv Hfit. split.
  - apply buf_set_frame; [assumption|]. apply setslice_frame; lia.
  - rewrite buf_buf_set by assumption. apply setslice_prefix; lia.
Qed.

Lemma dfs_rec_runs : forall (fuel : nat) (idx total off : Z) (h : heap),
  total - idx = Z.of_nat fuel ->
  (buffer self < length h)%nat ->
  0 <= off ->
  off + 257 * Z.of_nat fuel <= Zlen (buf self h) ->
  exists h',
    runs self (Z.to_nat off) (Z.to_nat (off + 257 * Z.of_nat fuel))
      (dfs_rec self fuel idx total off h) h
      (map (app (take (Z.to_nat off) (buf self h))) (tails fuel)) h'.
Proof.
  induction fuel as [|k IH]; intros idx total off h Hfuel Hb Hoff Hfit.
  - (* the leaf: one snapshot *)
    simpl dfs_rec. replace (idx =? total) with true by lia.
    unfold alloc.
    set (f := getslice (buf self h) 0 off).
    exists (h ++ [f]), [(length h, h ++ [f])].
    split; [reflexivity|]. split.
    + simpl. unfold file_bytes. simpl.
      rewrite list_lookup_total_middle by reflexivity.
      subst f. rewrite getslice_prefix by lia. by rewrite app_nil_r.
    + simpl. split; [by apply alloc_frame|].
      split; [rewrite length_app; simpl; lia|apply heap_frame_refl].
  - (* one more section: the two loops *)
    simpl dfs_rec. replace (idx =? total) with false by lia.
    rewrite tl_pairs_self.
    set (P := take (Z.to_nat off) (buf self h)).
    set (lo := Z.to_nat off).
    set (hi := Z.to_nat (off + 257 * Z.of_nat (S k))).
    rewrite tails_S, map_flat_map.
    eapply (for_each_runs self lo hi _
              (fun tl => map (app P) (sections_of tl (tails k))) h);
      [|apply heap_frame_refl].
    intros tl h1 Htl F1.
    apply in_sample_init in Htl as (t & l & -> & Ht & Hl).
    destruct (heap_frame_buffer _ _ _ _ F1) as (Hb1 & Hlen1 & Hpre1).
    specialize (Hb1 Hb).
    change ([t; l] !! 1%nat) with (Some l). cbv iota beta.
    rewrite py_bytes_ok by (repeat constructor; lia).
    destruct (write_step off 2 [t; l] h1) as (F2 & Hpre2);
      [assumption | assumption | reflexivity | lia |].
    set (h2 := buf_set self h1 (setslice (buf self h1) off (off + 2) [t; l]))
      in *.
    destruct (heap_frame_buffer _ _ _ _ F2) as (Hb2 & Hlen2 & _).
    specialize (Hb2 Hb1).
    unfold lo in Hpre1. rewrite Hpre1 in Hpre2. fold P in Hpre2.
    unfold sections_of. change ([t; l] !! 1%nat) with (Some l).
    cbv iota beta.
    destruct (Z.eqb_spec l 0) as [->|Hl0].
    + (* no value bytes *)
      destruct (IH (idx + 1) total (off + 2) h2) as (h' & R);
        [lia | assumption | lia | lia |].
      exists h'. rewrite Hpre2 in R.
      eapply runs_pre; [widen F2|].
      rewrite map_map.
      rewrite (map_ext _ (app (P ++ [t; 0])))
        by (intros s; by rewrite <- app_assoc).
      widen R.
    + (* every value of [l] bytes *)
      rewrite map_flat_map.
      destruct (for_each_runs self (Z.to_nat (off + 2)) hi
                  (fun value h =>
                     match py_bytes value with
                     | Some value_bytes =>
                         dfs_rec self k (idx + 1) total (off + 2 + l)
                           (buf_set self h
                              (setslice (buf self h) (off + 2) (off + 2 + l)
                                 value_bytes))
                     | None => Raise ValueError h
                     end)
                  (fun value => map (app (P ++ [t; l] ++ value)) (tails k))
                  h2 (product (range 256) (Z.to_nat l))) with h2
        as (h' & R); [|apply heap_frame_refl|].
      * intros v h3 Hv F3.
        apply product_range_bytes in Hv as (Hvl & Hvb).
        destruct (heap_frame_buffer _ _ _ _ F3) as (Hb3 & Hlen3 & Hpre3).
        specialize (Hb3 Hb2).
        rewrite py_bytes_ok by assumption.
        destruct (write_step (off + 2) l v h3) as (F4 & Hpre4);
          [assumption | lia | unfold Zlen; lia | lia |].
        rewrite Hpre3, Hpre2 in Hpre4.
        set (h4 := buf_set self h3 _) in *.
        destruct (heap_frame_buffer _ _ _ _ F4) as (Hb4 & Hlen4 & _).
        specialize (Hb4 Hb3).
        destruct (IH (idx + 1) total (off + 2 + l) h4) as (h' & R);
          [lia | assumption | lia | lia |].
        exists h'. rewrite Hpre4, <- app_assoc in R.
        eapply runs_pre; [widen F4|]. widen R.
      * exists h'.
        eapply runs_pre; [widen F2|].
        rewrite (flat_map_ext _
                   (fun value => map (app (P ++ [t; l] ++ value)) (tails k))).
        -- widen R.
        -- intros v. rewrite map_map. apply map_ext. intros s.
           by rewrite <- !app_assoc.
Qed.

End Traversal.

(** ** A whole enumeration *)

Lemma get_magic_bytes : get_magic = [0x0D; 0x90; 0xE1; 0xFE].
Proof. reflexivity. Qed.

Lemma Generator_init_wf (h0 : heap) :
  well_formed (fst (Generator_init h0)) (snd (Generator_init h0)).
Proof.
  unfold Generator_init, alloc, well_formed, buf. simpl.
  repeat split.
  - rewrite length_app. simpl. lia.
  - rewrite list_lookup_total_middle by reflexivity.
    unfold Zlen, byte_array_init, capacity. rewrite length_replicate. lia.
Qed.

Lemma well_formed_frame self lo hi h h' :
  well_formed self h -> heap_frame self lo hi h h' -> well_formed self h'.
Proof.
  intros (Htl & Hm & Hb & Hlen) F.
  destruct (heap_frame_buffer _ _ _ _ _ F) as (Hb' & Hlen' & _).
  repeat split; auto. congruence.
Qed.

Lemma setitem_ok (b : list Z) (i v : Z) :
  0 <= i < Zlen b -> 0 <= v < 256 ->
  setitem b i v = inr (<[Z.to_nat i := v]> b).
Proof.
  intros Hi Hv. unfold setitem, is_byte.
  destruct (Z.leb_spec 0 v), (Z.ltb_spec v 256); try lia. cbn [andb].
  destruct (Z.ltb_spec i 0); [lia|].
  destruct (Z.ltb_spec i 0), (Z.leb_spec (Zlen b) i); try lia. reflexivity.
Qed.

Lemma setitem_bad_value (b : list Z) (i v : Z) :
  v < 0 \/ 255 < v -> setitem b i v = inl ValueError.
Proof.
  intros Hv. unfold setitem, is_byte.
  destruct (Z.leb_spec 0 v), (Z.ltb_spec v 256); try lia; reflexivity.
Qed.

Lemma insert_frame (b : list Z) (i : nat) (v : Z) :
  (i < length b)%nat ->
  frame_buf i (S i) b (<[i := v]> b)
  /\ take (S i) (<[i := v]> b) = take i b ++ [v].
Proof.
  intros Hi. repeat split.
  - apply length_insert.
  - by apply take_insert_ge.
  - apply drop_insert_lt. lia.
  - rewrite (take_S_r _ _ v) by (by apply list_lookup_insert_eq).
    by rewrite take_insert_ge.
Qed.

Lemma generate_all_runs self (n : Z) (h : heap) :
  well_formed self h -> 0 <= n <= 255 ->
  exists h',
    runs self 0 (Z.to_nat (5 + 257 * n)) (generate_all self n h) h
      (map (app (header n)) (tails (Z.to_nat n))) h'.
Proof.
  intros (Htl & Hm & Hb & Hlen) Hn. unfold capacity in Hlen.
  unfold generate_all.
  destruct (write_step self 0 4 (magic self) h) as (F1 & Hpre1);
    [assumption | lia | by rewrite Hm | lia |].
  set (h1 := buf_set self h _) in *.
  destruct (heap_frame_buffer _ _ _ _ _ F1) as (Hb1 & Hlen1 & _).
  specialize (Hb1 Hb).
  rewrite setitem_ok by lia.
  destruct (insert_frame (buf self h1) (Z.to_nat 4) n) as (Fb & Hpre2);
    [unfold Zlen in *; lia|].
  assert (F2 : heap_frame self (Z.to_nat 4) (S (Z.to_nat 4)) h1
                 (buf_set self h1 (<[Z.to_nat 4 := n]> (buf self h1))))
    by (by apply buf_set_frame).
  set (h2 := buf_set self h1 _) in *.
  destruct (heap_frame_buffer _ _ _ _ _ F2) as (Hb2 & Hlen2 & _).
  specialize (Hb2 Hb1).
  assert (Hhead : take (Z.to_nat 5) (buf self h2) = header n).
  { unfold h2. rewrite buf_buf_set by assumption.
    change (Z.to_nat 5) with (S (Z.to_nat 4)).
    rewrite Hpre2. change (Z.to_nat (0 + 4)) with (Z.to_nat 4) in Hpre1.
    rewrite Hpre1, Hm, get_magic_bytes. reflexivity. }
  unfold dfs.
  destruct (dfs_rec_runs self Htl (Z.to_nat (n - 0)) 0 n 5 h2) as (h' & R);
    [lia | assumption | lia | lia |].
  exists h'. rewrite Hhead in R.
  replace (Z.to_nat (n - 0)) with (Z.to_nat n) in * by lia.
  eapply runs_pre.
  { eapply heap_frame_trans; (eapply heap_frame_mono; [| |eassumption]); lia. }
  eapply runs_mono; [| |exact R]; lia.
Qed.

(** ** The enumeration of the specification and the loops of [dfs] *)

Section Enumeration.

Lemma odometer_product (n : nat) : odometer n = product (range 256) n.
Proof.
  induction n as [|n IH]; [reflexivity|].
  rewrite product_S. simpl. by rewrite IH.
Qed.

Lemma sample_init_catalog :
  sample_init = map (fun tl => [fst tl; snd tl]) catalog.
Proof.
  unfold sample_init, catalog.
  rewrite (product_S _ 1), (product_S _ 0), product_0, map_flat_map.
  apply flat_map_ext. intros t. rewrite map_flat_map, map_map.
  by rewrite (flat_map_singleton (fun l => [t; l])).
Qed.

Lemma sections_of_pair (t l : Z) (rest : list (list Z)) :
  0 <= l ->
  sections_of [t; l] rest
  = flat_map (fun v => map (app ([t; l] ++ v)) rest)
      (odometer (Z.to_nat l)).
Proof.
  intros Hl. unfold sections_of. change ([t; l] !! 1%nat) with (Some l).
  cbv iota beta. destruct (Z.eqb_spec l 0) as [->|Hne].
  - simpl. by rewrite app_nil_r.
  - by rewrite odometer_product.
Qed.

Lemma in_catalog (tl : Z * Z) :
  In tl catalog <-> 0 <= fst tl < 256 /\ 0 <= snd tl < 256.
Proof.
  unfold catalog. rewrite in_flat_map. split.
  - intros (t & Ht%in_range & Hin). apply in_map_iff in Hin as (l & <- & Hl).
    apply in_range in Hl. simpl. lia.
  - intros [Ht Hl]. exists (fst tl). split; [apply in_range; lia|].
    apply in_map_iff. exists (snd tl). split; [by destruct tl|].
    apply in_range. lia.
Qed.

Lemma flat_map_ext_in {A B : Type} (f g : A -> list B) (l : list A) :
  (forall x, In x l -> f x = g x) -> flat_map f l = flat_map g l.
Proof.
  induction l as [|a l IH]; intros H; simpl; [reflexivity|].
  rewrite H by (by left). rewrite IH; [reflexivity|].
  intros x Hx. apply H. by right.
Qed.

Lemma cross_product_S (n : nat) :
  cross_product (S n)
  = flat_map (fun s => map (cons s) (cross_product n)) all_sections.
Proof. reflexivity. Qed.

Lemma tails_cross_product (n : nat) :
  tails n = map (flat_map encode_section) (cross_product n).
Proof.
  induction n as [|n IH]; [reflexivity|].
  rewrite tails_S, sample_init_catalog, flat_map_map, cross_product_S.
  unfold all_sections.
  rewrite map_flat_map, flat_map_flat_map.
  apply flat_map_ext_in. intros [t l] [_ Hl]%in_catalog.
  cbn [fst snd] in *.
  rewrite sections_of_pair by lia.
  rewrite flat_map_map. apply flat_map_ext. intros v.
  rewrite IH, !map_map. reflexivity.
Qed.

End Enumeration.

(** ** Odometer order is counting *)

Section Counting.

Lemma range_shift (m k a : nat) :
  map Z.of_nat (seq (m + a) k)
  = map (fun r => Z.of_nat m + r) (map Z.of_nat (seq a k)).
Proof.
  revert a. induction k as [|k IH]; intros a; simpl; [reflexivity|].
  f_equal; [lia|]. rewrite <- IH. do 2 f_equal. lia.
Qed.

Lemma range_add (m k : nat) :
  range (m + k) = range m ++ map (fun r => Z.of_nat m + r) (range k).
Proof.
  unfold range. rewrite seq_app, map_app. f_equal.
  rewrite <- range_shift. do 2 f_equal. lia.
Qed.

Lemma range_mul (a b : nat) :
  range (a * b)
  = flat_map (fun x => map (fun r => x * Z.of_nat b + r) (range b)) (range a).
Proof.
  induction a as [|a IH]; [reflexivity|].
  replace (S a * b)%nat with (a * b + b)%nat by lia.
  replace (S a) with (a + 1)%nat by lia.
  rewrite !range_add, flat_map_app, IH. f_equal.
  change (range 1) with [0]. simpl. rewrite app_nil_r.
  apply map_ext. intros r. lia.
Qed.

Lemma odometer_counts (n : nat) :
  odometer n = map (be_digits n) (range (256 ^ n)%nat).
Proof.
  induction n as [|n IH]; [reflexivity|].
  cbn [odometer]. rewrite Nat.pow_succ_r', range_mul, map_flat_map.
  apply flat_map_ext_in. intros x Hx%in_range.
  rewrite IH, !map_map. apply map_ext_in. intros r Hr%in_range.
  cbn [be_digits]. rewrite Nat2Z.inj_pow in *.
  change (Z.of_nat 256) with 256 in *.
  assert (0 < 256 ^ Z.of_nat n) by (apply Z.pow_pos_nonneg; lia).
  rewrite Z.div_add_l, Z.div_small, Z.add_0_r by lia.
  rewrite Z.add_comm, Z_mod_plus_full, Z.mod_small by lia. reflexivity.
Qed.

Lemma product_counts (n : nat) :
  product (range 256) n = map (be_digits n) (range (256 ^ n)%nat).
Proof. rewrite <- odometer_product. apply odometer_counts. Qed.

End Counting.

(** ** Which files are enumerated *)

Section Membership.

Lemma in_odometer (n : nat) (v : list Z) :
  In v (odometer n)
  <-> length v = n /\ Forall (fun x => 0 <= x < 256) v.
Proof.
  rewrite odometer_product, in_product.
  split; intros [Hl Hall]; (split; [assumption|]);
    (eapply List.Forall_impl; [|exact Hall]); intros x Hx; cbv beta in *.
  - apply in_range in Hx. lia.
  - apply in_range. lia.
Qed.

Lemma in_all_sections (s : TlvSection) : In s all_sections <-> section_ok s.
Proof.
  unfold all_sections, section_ok. rewrite in_flat_map. split.
  - intros ([t l] & [Ht Hl]%in_catalog & Hin). simpl in *.
    apply in_map_iff in Hin as (v & <- & [Hv Hb]%in_odometer). simpl.
    unfold Zlen. repeat split; try lia. assumption.
  - intros (Ht & Hl & Hv & Hb). exists (tag s, len s).
    split; [by apply in_catalog|]. simpl.
    apply in_map_iff. exists (value s). split; [by destruct s|].
    apply in_odometer. unfold Zlen in Hv. split; [lia|assumption].
Qed.

Lemma in_cross_product (n : nat) : forall ss,
  In ss (cross_product n) <-> length ss = n /\ Forall section_ok ss.
Proof.
  induction n as [|n IH]; intros ss.
  - simpl. split.
    + intros [<-|[]]. by split.
    + intros [Hl _]. left. symmetry. by apply nil_length_inv.
  - rewrite cross_product_S, in_flat_map. split.
    + intros (s & Hs%in_all_sections & Hin).
      apply in_map_iff in Hin as (ss' & <- & [<- Hall]%IH).
      split; [reflexivity|by constructor].
    + intros [Hl Hall]. destruct ss as [|s ss']; [discriminate|].
      inversion Hall; subst. exists s.
      split; [by apply in_all_sections|].
      apply in_map, IH. split; [by injection Hl|assumption].
Qed.

Lemma length_encode_file (n : Z) (ss : list TlvSection) :
  Forall section_ok ss ->
  Zlen (encode_file n ss) = 5 + sections_size ss.
Proof.
  unfold encode_file, Zlen. rewrite length_app. simpl length.
  induction 1 as [|s ss (_ & _ & Hv & _) _ IH]; simpl; [reflexivity|].
  rewrite length_app. unfold Zlen in Hv. lia.
Qed.

Lemma sections_size_bounds (ss : list TlvSection) :
  Forall section_ok ss ->
  2 * Z.of_nat (length ss) <= sections_size ss <= 257 * Z.of_nat (length ss).
Proof.
  induction 1 as [|s ss (_ & Hl & _) _ IH]; simpl; lia.
Qed.

End Membership.

(** ** Lexicographic order *)

Section Order.

Lemma diff_lt_lex a b : diff_lt a b -> lex_lt a b.
Proof.
  intros (p & x & y & a' & b' & -> & -> & Hxy).
  induction p as [|z p IH]; simpl; by constructor.
Qed.

Lemma diff_lt_head (x y : Z) a b : x < y -> diff_lt (x :: a) (y :: b).
Proof. intros Hxy. by exists [], x, y, a, b. Qed.

Lemma diff_lt_app_l p a b : diff_lt a b -> diff_lt (p ++ a) (p ++ b).
Proof.
  intros (q & x & y & a' & b' & -> & -> & Hxy).
  exists (p ++ q), x, y, a', b'. by rewrite <- !app_assoc.
Qed.

Lemma diff_lt_app_r a b s t : diff_lt a b -> diff_lt (a ++ s) (b ++ t).
Proof.
  intros (q & x & y & a' & b' & -> & -> & Hxy).
  exists q, x, y, (a' ++ s), (b' ++ t). by rewrite <- !app_assoc.
Qed.

Context {A B : Type}.

Lemma StronglySorted_app_in (R : B -> B -> Prop) (l1 l2 : list B) :
  StronglySorted R l1 -> StronglySorted R l2 ->
  (forall a b, In a l1 -> In b l2 -> R a b) ->
  StronglySorted R (l1 ++ l2).
Proof.
  induction 1 as [|a l1 S1 IH Ha]; intros S2 H12; simpl; [assumption|].
  constructor.
  - apply IH; [assumption|]. intros. apply H12; [by right|assumption].
  - apply List.Forall_app. split; [assumption|].
    apply List.Forall_forall. intros b Hb. apply H12; [by left|assumption].
Qed.

Lemma StronglySorted_map_in (R : B -> B -> Prop) (g : A -> B) (l : list A) :
  StronglySorted (fun x y => R (g x) (g y)) l -> StronglySorted R (map g l).
Proof.
  induction 1 as [|a l S1 IH Ha]; simpl; constructor; [assumption|].
  apply List.Forall_map. assumption.
Qed.

Lemma StronglySorted_impl_in (Q R : A -> A -> Prop) (l : list A) :
  (forall x y, Q x y -> R x y) -> StronglySorted Q l -> StronglySorted R l.
Proof.
  intros HQR. induction 1 as [|a l S1 IH Ha]; constructor; [assumption|].
  eapply List.Forall_impl; [|exact Ha]. auto.
Qed.

Lemma StronglySorted_flat_map (Q : A -> A -> Prop) (R : B -> B -> Prop)
  (f : A -> list B) (l : list A) :
  StronglySorted Q l ->
  (forall x, In x l -> StronglySorted R (f x)) ->
  (forall x y a b, Q x y -> In a (f x) -> In b (f y) -> R a b) ->
  StronglySorted R (flat_map f l).
Proof.
  intros S Hf HQ. induction S as [|x l S1 IH Hx]; simpl; [constructor|].
  apply StronglySorted_app_in.
  - apply Hf. by left.
  - apply IH. intros. apply Hf. by right.
  - intros a b Ha Hb. apply in_flat_map in Hb as (y & Hy & Hb).
    rewrite List.Forall_forall in Hx. eapply HQ; eauto.
Qed.

End Order.

(** ** The enumeration is strictly increasing *)

Section Sortedness.

Lemma range_sorted (n : nat) : StronglySorted Z.lt (range n).
Proof.
  unfold range. apply StronglySorted_map_in.
  generalize 0%nat. induction n as [|n IH]; intros a; simpl; constructor.
  - apply IH.
  - apply List.Forall_forall. intros b Hb%in_seq. lia.
Qed.

Lemma odometer_sorted (n : nat) : StronglySorted diff_lt (odometer n).
Proof.
  induction n as [|n IH]; cbn [odometer]; [repeat constructor|].
  eapply StronglySorted_flat_map; [apply (range_sorted 256)| |].
  - intros x _. apply StronglySorted_map_in.
    eapply StronglySorted_impl_in; [|exact IH].
    intros a b. apply (diff_lt_app_l [x]).
  - intros x y a b Hxy (a' & <- & _)%in_map_iff (b' & <- & _)%in_map_iff.
    by apply diff_lt_head.
Qed.

Lemma catalog_sorted : StronglySorted pair_lt catalog.
Proof.
  unfold catalog.
  eapply StronglySorted_flat_map; [apply (range_sorted 256)| |].
  - intros t _. apply StronglySorted_map_in.
    eapply StronglySorted_impl_in; [|apply (range_sorted 256)].
    intros l l' Hl. right. by split.
  - intros t t' p q Ht (l & <- & _)%in_map_iff (l' & <- & _)%in_map_iff.
    by left.
Qed.

Lemma all_sections_sorted : StronglySorted section_lt all_sections.
Proof.
  unfold all_sections.
  eapply StronglySorted_flat_map; [apply catalog_sorted| |].
  - intros [t l] _. apply StronglySorted_map_in.
    eapply StronglySorted_impl_in; [|apply odometer_sorted].
    intros v v'. apply (diff_lt_app_l [t; l]).
  - intros [t l] [t' l'] s s' Hlt (v & <- & _)%in_map_iff
      (v' & <- & _)%in_map_iff.
    unfold section_lt, encode_section, pair_lt in *. simpl in *.
    destruct Hlt as [Ht|[-> Hl]].
    + by apply diff_lt_head.
    + apply (diff_lt_app_l [t']). by apply diff_lt_head.
Qed.

Lemma cross_product_sorted (n : nat) :
  StronglySorted sections_lt (cross_product n).
Proof.
  induction n as [|n IH]; [repeat constructor|].
  rewrite cross_product_S.
  eapply StronglySorted_flat_map; [apply all_sections_sorted| |].
  - intros s _. apply StronglySorted_map_in.
    eapply StronglySorted_impl_in; [|exact IH].
    intros a b. apply diff_lt_app_l.
  - intros s s' a b Hlt (a' & <- & _)%in_map_iff (b' & <- & _)%in_map_iff.
    by apply diff_lt_app_r.
Qed.

Lemma enumeration_sorted (n : Z) : StronglySorted lex_lt (enumeration n).
Proof.
  unfold enumeration. apply StronglySorted_map_in.
  eapply StronglySorted_impl_in; [|apply cross_product_sorted].
  intros a b Hab. by apply diff_lt_lex, diff_lt_app_l.
Qed.

End Sortedness.

(** ** Pulling, and the stores a consumer can observe *)

Section Observation.

Lemma pulls_drain (n : nat) : forall g, pulls n g = take n (fst (drain g)).
Proof.
  induction n as [|n IH]; intros g; [by destruct g|].
  destruct g as [h|e h|r h k]; simpl; [reflexivity..|]. by rewrite IH.
Qed.

Lemma observed_Yield r h k : observed (Yield r h k) = h :: observed (k h).
Proof. reflexivity. Qed.

Lemma store_after_pulls_observed (n : nat) : forall g h,
  store_after_pulls n g h = h \/ In (store_after_pulls n g h) (observed g).
Proof.
  induction n as [|n IH]; intros g h; [by left|]. right.
  destruct g as [h'|e h'|r h' k]; cbn [store_after_pulls];
    [by left..|].
  rewrite observed_Yield. destruct (IH (k h') h') as [->|Hin].
  - by left.
  - by right.
Qed.

Variable self : Generator.

Lemma chain_observed lo hi tr : forall h h' x,
  chain self lo hi h tr h' -> In x (map snd tr ++ [h']) ->
  heap_frame self lo hi h x.
Proof.
  induction tr as [|[r hr] tr IH]; intros h h' x; simpl.
  - intros F [<-|[]]. exact F.
  - intros (F & _ & C) [<-|Hin]; [exact F|].
    eapply heap_frame_trans; [exact F|]. eapply IH; eauto.
Qed.

(** A yielded file and everything that is yielded after it. *)
Lemma chain_lookup lo hi tr : forall h h' i r hr,
  chain self lo hi h tr h' -> tr !! i = Some (r, hr) ->
  heap_frame self lo hi h hr
  /\ (length h <= r < length hr)%nat
  /\ chain self lo hi hr (drop (S i) tr) h'.
Proof.
  induction tr as [|[r0 h0] tr IH]; intros h h' i r hr; [by destruct i|].
  simpl. intros (F & R & C). destruct i as [|i]; simpl.
  - intros [= <- <-]. by rewrite drop_0.
  - intros Hi. destruct (IH _ _ _ _ _ C Hi) as (F' & R' & C').
    split; [eapply heap_frame_trans; eauto|]. split; [|exact C'].
    destruct F as (L & _). lia.
Qed.

Lemma runs_emitted lo hi g h fs h' :
  runs self lo hi g h fs h' -> emitted g = fs.
Proof. intros (tr & D & M & _). unfold emitted. by rewrite D. Qed.

Lemma generate_all_emitted (n : Z) (h : heap) :
  well_formed self h -> 0 <= n <= 255 ->
  emitted (generate_all self n h) = enumeration n.
Proof.
  intros Hwf Hn. destruct (generate_all_runs self n h Hwf Hn) as (h' & R).
  rewrite (runs_emitted _ _ _ _ _ _ R), tails_cross_product, map_map.
  reflexivity.
Qed.

Lemma generate_all_invalid (n : Z) (h : heap) :
  well_formed self h -> n < 0 \/ 255 < n ->
  generate_all self n h
  = Raise ValueError
      (buf_set self h (setslice (buf self h) 0 4 (magic self))).
Proof.
  intros _ Hn. unfold generate_all. by rewrite setitem_bad_value.
Qed.

(** Whatever the argument, a traversal keeps the instance well formed in
    every store it can be observed in. *)
Lemma generate_all_observed (n : Z) (h x : heap) :
  well_formed self h -> In x (observed (generate_all self n h)) ->
  heap_frame self 0 (Z.to_nat capacity) h x.
Proof.
  intros Hwf Hin.
  destruct (Z_le_dec 0 n) as [H0|H0]; [destruct (Z_le_dec n 255) as [H1|H1]|].
  - destruct (generate_all_runs self n h Hwf (conj H0 H1))
      as (h' & tr & D & _ & C).
    unfold observed in Hin. rewrite D in Hin. simpl in Hin.
    eapply heap_frame_mono; [| |eapply chain_observed; eauto];
      unfold capacity; lia.
  - rewrite generate_all_invalid in Hin by (auto; lia).
    destruct Hin as [<-|[]]. destruct Hwf as (Htl & Hm & Hb & Hlen).
    unfold capacity in *.
    destruct (write_step self 0 4 (magic self) h) as (F1 & _);
      [assumption | lia | by rewrite Hm | lia |].
    eapply heap_frame_mono; [| |exact F1]; lia.
  - rewrite generate_all_invalid in Hin by (auto; lia).
    destruct Hin as [<-|[]]. destruct Hwf as (Htl & Hm & Hb & Hlen).
    unfold capacity in *.
    destruct (write_step self 0 4 (magic self) h) as (F1 & _);
      [assumption | lia | by rewrite Hm | lia |].
    eapply heap_frame_mono; [| |exact F1]; lia.
Qed.

End Observation.

(** * The properties of the specification *)

Lemma fresh_wf : well_formed (fst fresh) (snd fresh).
Proof. apply Generator_init_wf. Qed.

(** C5. For a section count [N] in [0, 255], every file that
    [generate_all N] emits begins with the five bytes [0D 90 E1 FE N]: the
    magic [0xFEE1900D] packed little-endian, then the section count. *)
Theorem header_correct (self : Generator) (h : heap) (N : Z) :
  well_formed self h -> 0 <= N <= 255 ->
  pack_le32 0xFEE1900D = [0x0D; 0x90; 0xE1; 0xFE]
  /\ forall f, In f (emitted (generate_all self N h)) ->
       take 5 f = [0x0D; 0x90; 0xE1; 0xFE; N].
Proof.
  intros Hwf HN. split; [reflexivity|]. intros f Hf.
  rewrite generate_all_emitted in Hf by assumption.
  unfold enumeration in Hf. apply in_map_iff in Hf as (ss & <- & _).
  reflexivity.
Qed.

Lemma header_correct_witness :
  well_formed (fst fresh) (snd fresh) /\ 0 <= 3 <= 255
  /\ pack_le32 0xFEE1900D = [0x0D; 0x90; 0xE1; 0xFE]
  /\ forall f, In f (emitted (generate_all (fst fresh) 3 (snd fresh))) ->
       take 5 f = [0x0D; 0x90; 0xE1; 0xFE; 3].
Proof.
  split; [apply fresh_wf|]. split; [lia|].
  apply (header_correct (fst fresh) (snd fresh) 3); [apply fresh_wf | lia].
Defined.

(** C6. For a section count [N] in [0, 255], every file that
    [generate_all N] emits is the 5-byte header followed by exactly [N]
    sections, each of them one tag byte, one length byte and exactly
    [length] value bytes; its size is [5 + sum (2 + length_i)]. *)
Theorem file_structure (self : Generator) (h : heap) (N : Z) :
  well_formed self h -> 0 <= N <= 255 ->
  forall f, In f (emitted (generate_all self N h)) ->
  exists ss : list TlvSection,
    Z.of_nat (length ss) = N
    /\ Forall section_ok ss
    /\ f = header N ++ flat_map encode_section ss
    /\ Zlen f = 5 + sections_size ss.
Proof.
  intros Hwf HN f Hf.
  rewrite generate_all_emitted in Hf by assumption.
  unfold enumeration in Hf.
  apply in_map_iff in Hf as (ss & <- & [Hlen Hok]%in_cross_product).
  exists ss. split; [lia|]. split; [assumption|].
  split; [reflexivity|]. by apply length_encode_file.
Qed.

Lemma file_structure_witness :
  exists ss : list TlvSection,
    Z.of_nat (length ss) = 1
    /\ Forall section_ok ss
    /\ [0x0D; 0x90; 0xE1; 0xFE; 1; 0; 1; 7]
       = header 1 ++ flat_map encode_section ss
    /\ Zlen [0x0D; 0x90; 0xE1; 0xFE; 1; 0; 1; 7] = 5 + sections_size ss.
Proof.
  apply (file_structure (fst fresh) (snd fresh) 1); [apply fresh_wf | lia |].
  rewrite generate_all_emitted by (apply fresh_wf || lia).
  apply (in_map (encode_file 1) _ [{| tag := 0; len := 1; value := [7] |}]).
  apply (in_cross_product 1). split; [reflexivity|].
  repeat constructor; simpl; lia.
Defined.

(** C7. [generate_all 0] yields exactly one file, the 5-byte header (the
    magic, then the byte 0) and nothing after it; the traversal reaches its
    leaf at once, so no tag/length pair is iterated: what remains of the
    generator after the yield is its return, and past the header the
    buffer is as it was. *)
Theorem zero_sections (self : Generator) (h : heap) :
  well_formed self h ->
  exists hr,
    generate_all self 0 h = Yield (length h) hr Done
    /\ file_bytes (length h, hr) = [0x0D; 0x90; 0xE1; 0xFE; 0]
    /\ emitted (generate_all self 0 h) = [[0x0D; 0x90; 0xE1; 0xFE; 0]]
    /\ buf self hr = [0x0D; 0x90; 0xE1; 0xFE; 0] ++ drop 5 (buf self h).
Proof.
  intros Hwf.
  destruct (generate_all_runs self 0 h Hwf) as (h' & tr & D & M & C); [lia|].
  pose proof Hwf as (Htl & Hm & Hb & Hlen). unfold capacity in Hlen.
  unfold generate_all in *.
  destruct (write_step self 0 4 (magic self) h) as (F1 & _);
    [assumption | lia | by rewrite Hm | lia |].
  set (h1 := buf_set self h _) in *.
  destruct (heap_frame_buffer _ _ _ _ _ F1) as (Hb1 & Hlen1 & _).
  rewrite setitem_ok in * by lia.
  set (h2 := buf_set self h1 _) in *.
  assert (L2 : length h2 = length h)
    by (unfold h2, h1, buf_set; by rewrite !length_insert).
  unfold dfs in *. change (Z.to_nat (0 - 0)) with 0%nat in *.
  cbn [dfs_rec] in *. change (0 =? 0) with true in *. cbv iota in *.
  unfold alloc in *. rewrite L2 in *.
  set (f := getslice (buf self h2) 0 5) in *.
  simpl in D. injection D as <- <-. simpl in M. injection M as M.
  unfold file_bytes in M. simpl in M.
  rewrite <- L2, list_lookup_total_middle in M by reflexivity.
  destruct C as (F & _ & _).
  exists (h2 ++ [f]). split; [reflexivity|].
  split.
  { unfold file_bytes. simpl.
    rewrite <- L2, list_lookup_total_middle by reflexivity. exact M. }
  split.
  { unfold emitted, file_bytes. simpl.
    rewrite <- L2, list_lookup_total_middle by reflexivity. by rewrite M. }
  destruct F as (_ & _ & Lb & _ & Hd).
  change (Z.to_nat (5 + 257 * 0)) with 5%nat in Hd.
  rewrite <- (take_drop 5 (buf self (h2 ++ [f]))), Hd. f_equal.
  unfold buf at 1. rewrite lookup_total_app_l by (rewrite L2; lia).
  fold (buf self h2). subst f. rewrite getslice_prefix in M; [exact M|].
  destruct (heap_frame_buffer self 4 5 h1 h2) as (_ & Hlen2 & _).
  { apply buf_set_frame; [lia|]. apply insert_frame. unfold Zlen in *. lia. }
  lia.
Qed.

Lemma zero_sections_witness :
  exists hr,
    generate_all (fst fresh) 0 (snd fresh) = Yield (length (snd fresh)) hr Done
    /\ file_bytes (length (snd fresh), hr) = [0x0D; 0x90; 0xE1; 0xFE; 0]
    /\ emitted (generate_all (fst fresh) 0 (snd fresh))
       = [[0x0D; 0x90; 0xE1; 0xFE; 0]]
    /\ buf (fst fresh) hr
       = [0x0D; 0x90; 0xE1; 0xFE; 0] ++ drop 5 (buf (fst fresh) (snd fresh)).
Proof. apply (zero_sections (fst fresh) (snd fresh)), fresh_wf. Defined.

(** C9. For a section count outside [0, 255], the first pull of
    [generate_all] raises at the write of the section-count byte (the magic
    is in the buffer by then, the count is not), and no file is emitted,
    however often the generator is pulled. *)
Theorem bad_section_count (self : Generator) (h : heap) (n : Z) :
  well_formed self h -> n < 0 \/ 255 < n ->
  generate_all self n h
  = Raise ValueError (buf_set self h (setslice (buf self h) 0 4 (magic self)))
  /\ setitem
       (buf self (buf_set self h (setslice (buf self h) 0 4 (magic self))))
       4 n
     = inl ValueError
  /\ (forall K, pulls K (generate_all self n h) = [])
  /\ emitted (generate_all self n h) = [].
Proof.
  intros Hwf Hn. pose proof (generate_all_invalid self n h Hwf Hn) as E.
  split; [exact E|]. split.
  - by apply setitem_bad_value.
  - rewrite E. split; [by intros [|K]|reflexivity].
Qed.

Lemma bad_section_count_witness :
  generate_all (fst fresh) 256 (snd fresh)
  = Raise ValueError
      (buf_set (fst fresh) (snd fresh)
         (setslice (buf (fst fresh) (snd fresh)) 0 4 (magic (fst fresh))))
  /\ setitem
       (buf (fst fresh)
          (buf_set (fst fresh) (snd fresh)
             (setslice (buf (fst fresh) (snd fresh)) 0 4 (magic (fst fresh)))))
       4 256
     = inl ValueError
  /\ (forall K, pulls K (generate_all (fst fresh) 256 (snd fresh)) = [])
  /\ emitted (generate_all (fst fresh) 256 (snd fresh)) = [].
Proof.
  apply (bad_section_count (fst fresh) (snd fresh) 256); [apply fresh_wf | lia].
Defined.

(** ** Files are copies of the buffer prefix *)

Section Snapshots.

Lemma cross_product_nonempty (n : nat) : cross_product n <> [].
Proof.
  intros E.
  assert (H : In (replicate n {| tag := 0; len := 0; value := [] |})
                (cross_product n)).
  { apply in_cross_product. split; [apply length_replicate|].
    apply List.Forall_forall. intros s Hs%list_elem_of_In.
    apply elem_of_replicate in Hs as [-> _].
    repeat split; simpl; try lia. constructor. }
  by rewrite E in H.
Qed.

Lemma generate_all_first_yield (self : Generator) (N : Z) (h : heap) :
  well_formed self h -> 0 <= N <= 255 ->
  exists r hr k, generate_all self N h = Yield r hr k.
Proof.
  intros Hwf HN.
  destruct (generate_all_runs self N h Hwf HN) as (h' & tr & D & M & _).
  destruct (generate_all self N h) as [h0|e h0|r hr k]; [| |by eauto].
  - simpl in D. injection D as <- _. rewrite tails_cross_product in M.
    symmetry in M. apply map_eq_nil, map_eq_nil in M.
    by apply cross_product_nonempty in M.
  - discriminate.
Qed.

(** What [bytes(self.buffer[:offset])] copies is a prefix of the buffer. *)
Lemma getslice_0 (b : list Z) (hi : Z) :
  getslice b 0 hi = take (Z.to_nat (slice_stop b 0 hi)) b.
Proof.
  unfold getslice, slice_start, adjust. change (0 <? 0) with false.
  cbv iota. rewrite (Z.min_l 0) by (unfold Zlen; lia).
  by rewrite Z.sub_0_r, drop_0.
Qed.

Lemma take_length_take (n : nat) (b : list Z) :
  take (length (take n b)) b = take n b.
Proof.
  rewrite length_take. destruct (Nat.le_ge_cases n (length b)).
  - by rewrite Nat.min_l.
  - rewrite Nat.min_r by assumption. by rewrite !take_ge.
Qed.

Variable self : Generator.

Lemma snapshots_stop (g : Gen) :
  snapshots self g -> (buffer self < length (snd (snd (drain g))))%nat.
Proof. by intros [_ ?]. Qed.

Lemma snapshots_then (g : Gen) (k : heap -> Gen) :
  snapshots self g ->
  (forall h, (buffer self < length h)%nat -> snapshots self (k h)) ->
  snapshots self (then_ g k).
Proof.
  intros Hg Hk. induction g as [h|e h|r h k' IH]; cbn [then_].
  - apply Hk. exact (snapshots_stop _ Hg).
  - exact Hg.
  - destruct Hg as [Hall Hstop]. cbn [drain fst snd] in Hall, Hstop.
    inversion Hall as [|? ? Hr Hrest]; subst.
    destruct (IH h (conj Hrest Hstop)) as [Hall' Hstop'].
    split; cbn [drain fst snd]; [by constructor|exact Hstop'].
Qed.

Lemma snapshots_for_each {A : Type} (body : A -> heap -> Gen) (xs : list A) :
  (forall x h, (buffer self < length h)%nat -> snapshots self (body x h)) ->
  forall h, (buffer self < length h)%nat ->
            snapshots self (for_each xs body h).
Proof.
  intros Hbody. induction xs as [|x xs IH]; intros h Hb; cbn [for_each].
  - by split.
  - apply snapshots_then; [by apply Hbody|exact IH].
Qed.

Lemma snapshots_Raise (e : exn) (h : heap) :
  (buffer self < length h)%nat -> snapshots self (Raise e h).
Proof. by split. Qed.

Lemma length_buf_set (h : heap) (b : list Z) :
  length (buf_set self h b) = length h.
Proof. apply length_insert. Qed.

(** Whatever the pairs, the offsets and the buffer are: a leaf allocates
    its file from the buffer and yields it at once. *)
Lemma dfs_rec_snapshots : forall (fuel : nat) (idx total off : Z) (h : heap),
  (buffer self < length h)%nat ->
  snapshots self (dfs_rec self fuel idx total off h).
Proof.
  assert (Hleaf : forall off h, (buffer self < length h)%nat ->
            snapshots self
              (let '(r, h0) := alloc h (getslice (buf self h) 0 off) in
               Yield r h0 Done)).
  { intros off h Hb. unfold alloc, snapshots. cbn [drain fst snd].
    split; [|rewrite length_app; lia].
    constructor; [|constructor]. unfold snapshot. cbn [fst snd].
    rewrite list_lookup_middle by reflexivity.
    unfold buf at 2. rewrite lookup_total_app_l by assumption.
    fold (buf self h). rewrite getslice_0. by eexists. }
  induction fuel as [|k IH]; intros idx total off h Hb; cbn [dfs_rec];
    (destruct (idx =? total); [by apply Hleaf|]).
  - by apply snapshots_Raise.
  - apply snapshots_for_each; [|assumption]. intros tl h1 Hb1.
    destruct (tl !! 1%nat) as [l|]; [|by apply snapshots_Raise].
    destruct (py_bytes tl) as [tl_bytes|]; [|by apply snapshots_Raise].
    destruct (l =? 0); [apply IH; by rewrite length_buf_set|].
    apply snapshots_for_each; [|by rewrite length_buf_set].
    intros v h2 Hb2.
    destruct (py_bytes v) as [value_bytes|]; [|by apply snapshots_Raise].
    apply IH. by rewrite length_buf_set.
Qed.

Lemma generate_all_snapshots (n : Z) (h : heap) :
  (buffer self < length h)%nat -> snapshots self (generate_all self n h).
Proof.
  intros Hb. unfold generate_all.
  destruct (setitem _ 4 n) as [e|b].
  - apply snapshots_Raise. by rewrite length_buf_set.
  - apply dfs_rec_snapshots. by rewrite !length_buf_set.
Qed.

Lemma enumeration_diff_sorted (n : Z) : StronglySorted diff_lt (enumeration n).
Proof.
  unfold enumeration. apply StronglySorted_map_in.
  eapply StronglySorted_impl_in; [|apply cross_product_sorted].
  intros a b Hab. by apply diff_lt_app_l.
Qed.

Lemma StronglySorted_lookup {A : Type} (R : A -> A -> Prop) (l : list A) :
  StronglySorted R l ->
  forall (i j : nat) (a b : A),
    (i < j)%nat -> l !! i = Some a -> l !! j = Some b -> R a b.
Proof.
  induction 1 as [|x l S IH Hx]; intros i j a b Hij Hi Hj; [by destruct i|].
  destruct j as [|j]; [lia|]. cbn in Hj. destruct i as [|i]; cbn in Hi.
  - injection Hi as ->. rewrite List.Forall_forall in Hx. apply Hx.
    apply list_elem_of_In. by eapply list_elem_of_lookup_2.
  - apply (IH i j); [lia|assumption..].
Qed.

(** A file that comes later in the enumeration was read from a buffer that
    no longer holds the earlier one. *)
Lemma diff_lt_overwritten (f f' b : list Z) (m : nat) :
  diff_lt f f' -> f' = take m b -> take (length f) b <> f.
Proof.
  intros (p & x & y & a' & b' & -> & Hf' & Hxy) E Eq.
  assert (Hy : b !! length p = Some y).
  { apply (lookup_take_Some b m). rewrite <- E, Hf'.
    by apply list_lookup_middle. }
  assert (Hx : b !! length p = Some x).
  { apply (lookup_take_Some b (length (p ++ x :: a'))). rewrite Eq.
    by apply list_lookup_middle. }
  rewrite Hy in Hx. injection Hx as ->. lia.
Qed.

End Snapshots.

(** C3. Every file that [generate_all] emits is a copy of the buffer prefix
    in an object of its own.  When it is yielded it holds the bytes of the
    buffer up to its length (the file of that rank in the enumeration), at
    an address that is new: it is neither the buffer nor any object that
    existed before, nor any file yielded later.  By every later yield the
    enumerator has overwritten those bytes of the buffer, and the file
    still has the bytes it was yielded with, up to the end of the
    traversal. *)
Theorem snapshot_isolation (self : Generator) (h : heap) (N : Z) :
  well_formed self h -> 0 <= N <= 255 ->
  forall (i : nat) (r : loc) (hr : heap),
    fst (drain (generate_all self N h)) !! i = Some (r, hr) ->
    exists f : list Z,
      hr !! r = Some f
      /\ enumeration N !! i = Some f
      /\ take (length f) (buf self hr) = f
      /\ r <> buffer self
      /\ h !! r = None
      /\ (forall (j : nat) (r' : loc) (hr' : heap),
            (i < j)%nat ->
            fst (drain (generate_all self N h)) !! j = Some (r', hr') ->
            r' <> r
            /\ take (length f) (buf self hr') <> f
            /\ hr' !! r = Some f)
      /\ snd (snd (drain (generate_all self N h))) !! r = Some f.
Proof.
  intros Hwf HN i r hr Hi.
  pose proof (generate_all_emitted self N h Hwf HN) as Hem.
  destruct (generate_all_runs self N h Hwf HN) as (h' & tr & D & _ & C).
  destruct Hwf as (_ & _ & Hb & _).
  pose proof (generate_all_snapshots self N h Hb) as [Hsnap _].
  unfold emitted in Hem. rewrite D in Hi, Hsnap, Hem |- *.
  cbn [fst snd] in Hi, Hsnap, Hem |- *.
  rewrite List.Forall_forall in Hsnap.
  assert (Hfile : forall j r' hr',
            tr !! j = Some (r', hr') ->
            exists n, hr' !! r' = Some (take n (buf self hr'))
                      /\ enumeration N !! j = Some (take n (buf self hr'))).
  { intros j r' hr' Hj.
    destruct (Hsnap (r', hr')) as (n & Hn).
    { apply list_elem_of_In. by eapply list_elem_of_lookup_2. }
    cbn [fst snd] in Hn. exists n. split; [exact Hn|].
    rewrite <- Hem. change (map ?g ?l) with (g <$> l).
    rewrite list_lookup_fmap, Hj. cbn. unfold file_bytes. cbn [fst snd].
    by rewrite (list_lookup_total_correct _ _ _ Hn). }
  destruct (Hfile i r hr Hi) as (n & Hf & He).
  destruct (chain_lookup self _ _ _ _ _ _ _ _ C Hi) as (F & R & C').
  assert (Hne : r <> buffer self) by lia.
  exists (take n (buf self hr)).
  split; [exact Hf|]. split; [exact He|].
  split; [apply take_length_take|]. split; [exact Hne|].
  split; [apply lookup_ge_None; lia|]. split.
  - intros j r' hr' Hij Hj.
    assert (Hj' : drop (S i) tr !! (j - S i)%nat = Some (r', hr'))
      by (rewrite lookup_drop, <- Hj; f_equal; lia).
    destruct (chain_lookup self _ _ _ _ _ _ _ _ C' Hj') as (F' & R' & _).
    split; [lia|]. split.
    + destruct (Hfile j r' hr' Hj) as (m & _ & He').
      eapply diff_lt_overwritten; [|reflexivity].
      exact (StronglySorted_lookup diff_lt _ (enumeration_diff_sorted N)
               i j _ _ Hij He He').
    + rewrite <- Hf. destruct F' as (_ & O & _). apply O; [lia|exact Hne].
  - rewrite <- Hf. apply chain_frame in C'. destruct C' as (_ & O & _).
    apply O; [lia|exact Hne].
Qed.

Lemma snapshot_isolation_witness :
  exists f : list Z,
    snd first_of_one !! fst first_of_one = Some f
    /\ enumeration 1 !! 0%nat = Some f
    /\ take (length f) (buf (fst fresh) (snd first_of_one)) = f
    /\ fst first_of_one <> buffer (fst fresh)
    /\ snd fresh !! fst first_of_one = None
    /\ (forall (j : nat) (r' : loc) (hr' : heap),
          (0 < j)%nat ->
          fst (drain (generate_all (fst fresh) 1 (snd fresh))) !! j
          = Some (r', hr') ->
          r' <> fst first_of_one
          /\ take (length f) (buf (fst fresh) hr') <> f
          /\ hr' !! fst first_of_one = Some f)
    /\ snd (snd (drain (generate_all (fst fresh) 1 (snd fresh))))
         !! fst first_of_one
       = Some f.
Proof.
  apply (snapshot_isolation (fst fresh) (snd fresh) 1 fresh_wf
           ltac:(lia) 0%nat (fst first_of_one) (snd first_of_one)).
  unfold first_of_one.
  destruct (generate_all_first_yield (fst fresh) 1 (snd fresh) fresh_wf)
    as (r & hr & k & E); [lia|].
  rewrite E. reflexivity.
Defined.

(** C8. For a section count [N] in [0, 255], a traversal writes no byte of
    the buffer at or beyond offset [5 + N * (2 + 255)], which is at most
    the capacity 65540, and equal to it exactly when [N = 255]; and the
    buffer keeps its length 65540.  Both hold in every store in which the
    traversal is suspended or has stopped, whatever the buffer held when it
    started. *)
Theorem write_bound (self : Generator) (h : heap) (N : Z) :
  well_formed self h -> 0 <= N <= 255 ->
  5 + N * (2 + 255) <= capacity
  /\ (5 + N * (2 + 255) = capacity <-> N = 255)
  /\ forall x : heap, In x (observed (generate_all self N h)) ->
       Zlen (buf self x) = capacity
       /\ drop (Z.to_nat (5 + N * (2 + 255))) (buf self x)
          = drop (Z.to_nat (5 + N * (2 + 255))) (buf self h).
Proof.
  intros Hwf HN. unfold capacity. split; [lia|]. split; [lia|].
  intros x Hx.
  destruct (generate_all_runs self N h Hwf HN) as (h' & tr & D & _ & C).
  unfold observed in Hx. rewrite D in Hx. cbn [fst snd] in Hx.
  pose proof (chain_observed self _ _ _ _ _ _ C Hx) as (_ & _ & HL & _ & HD).
  destruct Hwf as (_ & _ & _ & Hlen). unfold capacity in Hlen.
  split; [unfold Zlen in *; lia|].
  replace (5 + N * (2 + 255)) with (5 + 257 * N) by lia. exact HD.
Qed.

Lemma write_bound_witness :
  5 + 255 * (2 + 255) <= capacity
  /\ (5 + 255 * (2 + 255) = capacity <-> 255 = 255)
  /\ forall x : heap,
       In x (observed (generate_all (fst fresh) 255 (snd fresh))) ->
       Zlen (buf (fst fresh) x) = capacity
       /\ drop (Z.to_nat (5 + 255 * (2 + 255))) (buf (fst fresh) x)
          = drop (Z.to_nat (5 + 255 * (2 + 255)))
              (buf (fst fresh) (snd fresh)).
Proof.
  apply (write_bound (fst fresh) (snd fresh) 255); [apply fresh_wf | lia].
Defined.

(** C4. For a section count [N] in [0, 255] and any number [K] of pulls,
    two runs, each on a generator newly constructed in a store of its own,
    produce the same sequence of file bytes: the first [K] files of the
    enumeration. *)
Theorem determinism (h1 h2 : heap) (N : Z) (K : nat) :
  0 <= N <= 255 ->
  map file_bytes
    (pulls K
       (generate_all (fst (Generator_init h1)) N (snd (Generator_init h1))))
  = map file_bytes
      (pulls K
         (generate_all (fst (Generator_init h2)) N (snd (Generator_init h2))))
  /\ map file_bytes
       (pulls K
          (generate_all (fst (Generator_init h1)) N (snd (Generator_init h1))))
     = take K (enumeration N).
Proof.
  intros HN.
  assert (E : forall h0,
             map file_bytes
               (pulls K
                  (generate_all (fst (Generator_init h0)) N
                     (snd (Generator_init h0))))
             = take K (enumeration N)).
  { intros h0. rewrite pulls_drain, <- List.firstn_map.
    fold (emitted
            (generate_all (fst (Generator_init h0)) N
               (snd (Generator_init h0)))).
    by rewrite generate_all_emitted by (apply Generator_init_wf || exact HN). }
  split; [by rewrite !E|apply E].
Qed.

Lemma determinism_witness :
  map file_bytes
    (pulls 3
       (generate_all (fst (Generator_init [])) 1 (snd (Generator_init []))))
  = map file_bytes
      (pulls 3
         (generate_all (fst (Generator_init [[1; 2; 3]])) 1
            (snd (Generator_init [[1; 2; 3]]))))
  /\ map file_bytes
       (pulls 3
          (generate_all (fst (Generator_init [])) 1 (snd (Generator_init []))))
     = take 3 (enumeration 1).
Proof. apply (determinism [] [[1; 2; 3]] 1 3). lia. Defined.

(** C10. On one generator instance, after an earlier [generate_all N'] was
    run to its end or abandoned after any number [j] of pulls, a new
    [generate_all N] emits the files that a newly constructed generator
    emits.  More generally nothing that the buffer holds when a traversal
    starts reaches an emitted file: whatever its contents [b], the files
    are those of the enumeration. *)
Theorem reuse_independent (h0 h0' : heap) (N' N : Z) (j : nat) :
  0 <= N <= 255 ->
  let self := fst (Generator_init h0) in
  let s0 := snd (Generator_init h0) in
  emitted
    (generate_all self N (store_after_pulls j (generate_all self N' s0) s0))
  = emitted
      (generate_all (fst (Generator_init h0')) N (snd (Generator_init h0')))
  /\ forall b : list Z,
       Zlen b = capacity ->
       emitted (generate_all self N (buf_set self s0 b)) = enumeration N.
Proof.
  intros HN self s0.
  assert (Hwf : well_formed self s0) by apply Generator_init_wf.
  split.
  - rewrite !generate_all_emitted; try assumption; try apply Generator_init_wf.
    + reflexivity.
    + destruct (store_after_pulls_observed j (generate_all self N' s0) s0)
        as [->|Hin]; [assumption|].
      eapply well_formed_frame; [exact Hwf|].
      eapply generate_all_observed; eassumption.
  - intros b Hb. apply generate_all_emitted; [|assumption].
    destruct Hwf as (Htl & Hm & Hbuf & _). repeat split; try assumption.
    + unfold buf_set. by rewrite length_insert.
    + by rewrite buf_buf_set.
Qed.

Lemma reuse_independent_witness :
  emitted
    (generate_all (fst fresh) 2
       (store_after_pulls 7 (generate_all (fst fresh) 3 (snd fresh))
          (snd fresh)))
  = emitted
      (generate_all (fst (Generator_init [[1; 2; 3]])) 2
         (snd (Generator_init [[1; 2; 3]])))
  /\ forall b : list Z,
       Zlen b = capacity ->
       emitted (generate_all (fst fresh) 2 (buf_set (fst fresh) (snd fresh) b))
       = enumeration 2.
Proof. apply (reuse_independent [] [[1; 2; 3]] 3 2 7). lia. Defined.

(** ** A write past the end of the buffer *)

Section Overrun.

Lemma sample_init_first : sample_init = [0; 0] :: tail sample_init.
Proof.
  assert (E : head sample_init = Some [0; 0]) by (vm_compute; reflexivity).
  destruct sample_init as [|tl rest]; [discriminate|].
  by injection E as ->.
Qed.

(** A two-byte slice assignment that does not fit makes the array longer. *)
Lemma setslice_overrun (b : list Z) (lo x y : Z) :
  0 <= lo -> Zlen b < lo + 2 ->
  Zlen (setslice b lo (lo + 2) [x; y]) = Z.min lo (Zlen b) + 2.
Proof.
  intros Hlo Hover.
  unfold setslice, slice_stop, slice_start, adjust, Zlen in *.
  destruct (Z.ltb_spec lo 0), (Z.ltb_spec (lo + 2) 0); try lia.
  rewrite !length_app, length_take, length_drop. simpl length. lia.
Qed.

Variable self : Generator.
Hypothesis tl_pairs_self : tl_pairs self = sample_init.

(** With one section left and no room for its tag/length pair, [dfs]
    writes the pair all the same and yields. *)
Lemma dfs_overrun (h : heap) (idx off : Z) :
  (buffer self < length h)%nat -> 0 <= off -> Zlen (buf self h) < off + 2 ->
  exists (hr : heap) (k : heap -> Gen),
    dfs self idx (idx + 1) off h = Yield (length h) hr k
    /\ Zlen (buf self hr) = Z.min off (Zlen (buf self h)) + 2
    /\ file_bytes (length h, hr) = buf self hr.
Proof.
  intros Hb Hoff Hover. unfold dfs.
  replace (Z.to_nat (idx + 1 - idx)) with 1%nat by lia.
  cbn [dfs_rec]. replace (idx =? idx + 1) with false by lia.
  rewrite tl_pairs_self, sample_init_first. cbn [for_each].
  change ([0; 0] !! 1%nat) with (Some 0).
  change (py_bytes [0; 0]) with (Some [0; 0]). cbv iota beta.
  change (0 =? 0) with true. cbv iota.
  rewrite Z.eqb_refl. unfold alloc.
  set (h1 := buf_set self h (setslice (buf self h) off (off + 2) [0; 0])).
  assert (L1 : length h1 = length h) by apply length_insert.
  assert (B1 : buf self h1 = setslice (buf self h) off (off + 2) [0; 0])
    by (by apply buf_buf_set).
  assert (Z1 : Zlen (buf self h1) = Z.min off (Zlen (buf self h)) + 2)
    by (rewrite B1; by apply setslice_overrun).
  cbn [then_]. rewrite L1. eexists _, _. split; [reflexivity|].
  assert (B2 : buf self (h1 ++ [getslice (buf self h1) 0 (off + 2)])
               = buf self h1)
    by (unfold buf; apply lookup_total_app_l; lia).
  rewrite B2. split; [exact Z1|].
  unfold file_bytes. cbn [fst snd].
  rewrite <- L1, list_lookup_total_middle by reflexivity.
  unfold getslice, slice_stop, slice_start, adjust.
  destruct (Z.ltb_spec (off + 2) 0); [lia|]. change (0 <? 0) with false.
  cbv iota. rewrite !(Z.min_l 0) by (unfold Zlen; lia).
change (Z.to_nat 0) with 0%nat. rewrite drop_0. apply take_ge.
unfold Zlen in *. lia.
Qed.

End Overrun.

(** ** A traversal that outgrows the buffer *)

Section Growing.

Implicit Types b v : list Z.

(** A slice assignment that starts inside the array, or at its end. *)
Lemma setslice_at b (lo hi : Z) v :
  0 <= lo <= Zlen b -> lo <= hi ->
  setslice b lo hi v = take (Z.to_nat lo) b ++ v ++ drop (Z.to_nat hi) b.
Proof.
  intros Hlo Hle. unfold setslice, slice_stop, slice_start, adjust, Zlen in *.
  destruct (Z.ltb_spec lo 0), (Z.ltb_spec hi 0); try lia.
  rewrite (Z.min_l lo) by lia. rewrite Z.max_r by lia.
  destruct (Z.le_ge_cases hi (Z.of_nat (length b))).
  - by rewrite Z.min_l.
  - rewrite Z.min_r by lia. by rewrite !drop_ge by lia.
Qed.

Variable self : Generator.

Lemma heap_grows_refl lo hi h : heap_grows self lo hi h h.
Proof. repeat split; lia. Qed.

Lemma heap_grows_trans lo hi h1 h2 h3 :
  heap_grows self lo hi h1 h2 -> heap_grows self lo hi h2 h3 ->
  heap_grows self lo hi h1 h3.
Proof.
  intros (L1 & B1 & T1) (L2 & B2 & T2). repeat split; try lia. congruence.
Qed.

Lemma heap_grows_mono lo hi lo' hi' h h' :
  (lo' <= lo)%nat -> (hi <= hi')%nat ->
  heap_grows self lo hi h h' -> heap_grows self lo' hi' h h'.
Proof.
  intros Hlo Hhi (L & B & T). repeat split; try lia.
  replace lo' with (Nat.min lo' lo) by lia. rewrite <- !take_take. congruence.
Qed.

Lemma heap_grows_buffer lo hi h h' :
  heap_grows self lo hi h h' ->
  ((buffer self < length h)%nat -> (buffer self < length h')%nat)
  /\ Zlen (buf self h) <= Zlen (buf self h')
  /\ take lo (buf self h') = take lo (buf self h).
Proof. intros (L & B & T). unfold Zlen. repeat split; [lia..|exact T]. Qed.

Lemma grows_frame lo hi g h fs h' :
  grows self lo hi g h fs h' -> heap_grows self lo hi h h'.
Proof. by intros (tr & _ & _ & _ & F). Qed.

Lemma grows_pre lo hi g h0 h fs h' :
  heap_grows self lo hi h0 h -> grows self lo hi g h fs h' ->
  grows self lo hi g h0 fs h'.
Proof.
  intros F (tr & D & M & A & F'). exists tr.
  split; [exact D|]. split; [exact M|].
  split; [|eapply heap_grows_trans; eauto].
  eapply List.Forall_impl; [|exact A]. intros p Hp.
  eapply heap_grows_trans; eauto.
Qed.

Lemma grows_mono lo hi lo' hi' g h fs h' :
  (lo' <= lo)%nat -> (hi <= hi')%nat ->
  grows self lo hi g h fs h' -> grows self lo' hi' g h fs h'.
Proof.
  intros Hlo Hhi (tr & D & M & A & F). exists tr.
  split; [exact D|]. split; [exact M|].
  split; [|eapply heap_grows_mono; eauto].
  eapply List.Forall_impl; [|exact A]. intros p Hp.
  eapply heap_grows_mono; eauto.
Qed.

(** A run over a window follows from one over a narrower window. *)
Ltac widen_grows R := eapply grows_mono; [| |exact R]; lia.

Lemma grows_then lo hi g k h fs1 h1 fs2 h2 :
  grows self lo hi g h fs1 h1 -> grows self lo hi (k h1) h1 fs2 h2 ->
  grows self lo hi (then_ g k) h (fs1 ++ fs2) h2.
Proof.
  intros (tr1 & D1 & M1 & A1 & F1) (tr2 & D2 & M2 & A2 & F2).
  exists (tr1 ++ tr2). rewrite (drain_then _ _ _ _ D1), D2. cbn [fst snd].
  split; [reflexivity|]. split; [rewrite map_app; congruence|].
  split; [|eapply heap_grows_trans; eauto].
  apply List.Forall_app. split; [exact A1|].
  eapply List.Forall_impl; [|exact A2]. intros p Hp.
  eapply heap_grows_trans; eauto.
Qed.

Lemma for_each_grows {A : Type} lo hi (body : A -> heap -> Gen)
  (out : A -> list (list Z)) (h0 : heap) (xs : list A) :
  (forall x h, In x xs -> heap_grows self lo hi h0 h ->
     exists h', grows self lo hi (body x h) h (out x) h') ->
  forall h, heap_grows self lo hi h0 h ->
    exists h', grows self lo hi (for_each xs body h) h (flat_map out xs) h'.
Proof.
  induction xs as [|x xs IH]; intros Hbody h F; cbn [for_each flat_map].
  - exists h, []. repeat split; try lia. constructor.
  - destruct (Hbody x h) as (h1 & R1); [by left | assumption |].
    destruct (IH (fun y h Hy => Hbody y h (or_intror Hy)) h1) as (h2 & R2).
    { eapply heap_grows_trans; [exact F|]. eapply grows_frame, R1. }
    exists h2. eapply grows_then; eauto.
Qed.

(** One write of [v] at [off], inside the buffer or at its end: the bytes
    are written, and the buffer is extended if they do not fit. *)
Lemma write_grows (off n : Z) v (h : heap) :
  (buffer self < length h)%nat -> 0 <= off <= Zlen (buf self h) ->
  Zlen v = n ->
  heap_grows self (Z.to_nat off) (Z.to_nat (off + n)) h
    (buf_set self h (setslice (buf self h) off (off + n) v))
  /\ take (Z.to_nat (off + n))
       (buf self (buf_set self h (setslice (buf self h) off (off + n) v)))
     = take (Z.to_nat off) (buf self h) ++ v
  /\ off + n
     <= Zlen (buf self
                (buf_set self h (setslice (buf self h) off (off + n) v))).
Proof.
  intros Hb Hoff Hv. unfold heap_grows, Zlen in *.
  rewrite buf_buf_set by assumption.
  rewrite setslice_at by (unfold Zlen; lia).
  assert (Hl : length (take (Z.to_nat off) (buf self h)) = Z.to_nat off)
    by (rewrite length_take; lia).
  split; [split; [|split]|split].
  - unfold buf_set. rewrite length_insert. lia.
  - rewrite !length_app, Hl, length_drop. lia.
  - rewrite take_app_length' by (symmetry; exact Hl). reflexivity.
  - rewrite app_assoc. apply take_app_length'.
    rewrite length_app, Hl. lia.
  - rewrite !length_app, Hl. lia.
Qed.

Hypothesis tl_pairs_self : tl_pairs self = sample_init.

(** The traversal of [dfs_rec_runs], without the room: the files are the
    same, and the buffer is extended as far as the sections reach. *)
Lemma dfs_rec_grows : forall (fuel : nat) (idx total off : Z) (h : heap),
  total - idx = Z.of_nat fuel ->
  (buffer self < length h)%nat ->
  0 <= off <= Zlen (buf self h) ->
  exists h',
    grows self (Z.to_nat off) (Z.to_nat (off + 257 * Z.of_nat fuel))
      (dfs_rec self fuel idx total off h) h
      (map (app (take (Z.to_nat off) (buf self h))) (tails fuel)) h'.
Proof.
  induction fuel as [|k IH]; intros idx total off h Hfuel Hb Hoff.
  - (* the leaf: one snapshot *)
    simpl dfs_rec. replace (idx =? total) with true by lia.
    unfold alloc.
    set (f := getslice (buf self h) 0 off).
    assert (F : heap_grows self (Z.to_nat off)
                  (Z.to_nat (off + 257 * Z.of_nat 0)) h (h ++ [f])).
    { unfold heap_grows, buf. rewrite lookup_total_app_l by assumption.
      rewrite length_app. repeat split; lia. }
    exists (h ++ [f]), [(length h, h ++ [f])].
    split; [reflexivity|].
    split; [|split; [constructor; [exact F|constructor]|exact F]].
    cbn [map tails]. unfold file_bytes. cbn [fst snd].
    rewrite list_lookup_total_middle by reflexivity.
    subst f. rewrite getslice_prefix by lia. by rewrite app_nil_r.
  - (* one more section: the two loops *)
    simpl dfs_rec. replace (idx =? total) with false by lia.
    rewrite tl_pairs_self.
    set (P := take (Z.to_nat off) (buf self h)).
    set (lo := Z.to_nat off).
    set (hi := Z.to_nat (off + 257 * Z.of_nat (S k))).
    rewrite tails_S, map_flat_map.
    eapply (for_each_grows lo hi _
              (fun tl => map (app P) (sections_of tl (tails k))) h);
      [|apply heap_grows_refl].
    intros tl h1 Htl F1.
    apply in_sample_init in Htl as (t & l & -> & Ht & Hl).
    destruct (heap_grows_buffer _ _ _ _ F1) as (Hb1 & Hlen1 & Hpre1).
    specialize (Hb1 Hb).
    change ([t; l] !! 1%nat) with (Some l). cbv iota beta.
    rewrite py_bytes_ok by (repeat constructor; lia).
    destruct (write_grows off 2 [t; l] h1) as (F2 & Hpre2 & Hfit2);
      [assumption | lia | reflexivity |].
    set (h2 := buf_set self h1 (setslice (buf self h1) off (off + 2) [t; l]))
      in *.
    destruct (heap_grows_buffer _ _ _ _ F2) as (Hb2 & Hlen2 & _).
    specialize (Hb2 Hb1).
    unfold lo in Hpre1. rewrite Hpre1 in Hpre2. fold P in Hpre2.
    unfold sections_of. change ([t; l] !! 1%nat) with (Some l).
    cbv iota beta.
    destruct (Z.eqb_spec l 0) as [->|Hl0].
    + (* no value bytes *)
      destruct (IH (idx + 1) total (off + 2) h2) as (h' & R);
        [lia | assumption | lia |].
      exists h'. rewrite Hpre2 in R.
      eapply grows_pre; [eapply heap_grows_mono; [| |exact F2]; lia|].
      rewrite map_map.
      rewrite (map_ext _ (app (P ++ [t; 0])))
        by (intros s; by rewrite <- app_assoc).
      widen_grows R.
    + (* every value of [l] bytes *)
      rewrite map_flat_map.
      destruct (for_each_grows (Z.to_nat (off + 2)) hi
                  (fun value h =>
                     match py_bytes value with
                     | Some value_bytes =>
                         dfs_rec self k (idx + 1) total (off + 2 + l)
                           (buf_set self h
                              (setslice (buf self h) (off + 2) (off + 2 + l)
                                 value_bytes))
                     | None => Raise ValueError h
                     end)
                  (fun value => map (app (P ++ [t; l] ++ value)) (tails k))
                  h2 (product (range 256) (Z.to_nat l))) with h2
        as (h' & R); [|apply heap_grows_refl|].
      * intros v h3 Hv F3.
        apply product_range_bytes in Hv as (Hvl & Hvb).
        destruct (heap_grows_buffer _ _ _ _ F3) as (Hb3 & Hlen3 & Hpre3).
        specialize (Hb3 Hb2).
        rewrite py_bytes_ok by assumption.
        destruct (write_grows (off + 2) l v h3) as (F4 & Hpre4 & Hfit4);
          [assumption | lia | unfold Zlen; lia |].
        rewrite Hpre3, Hpre2 in Hpre4.
        set (h4 := buf_set self h3 _) in *.
        destruct (heap_grows_buffer _ _ _ _ F4) as (Hb4 & Hlen4 & _).
        specialize (Hb4 Hb3).
        destruct (IH (idx + 1) total (off + 2 + l) h4) as (h' & R);
          [lia | assumption | lia |].
        exists h'. rewrite Hpre4, <- app_assoc in R.
        eapply grows_pre; [eapply heap_grows_mono; [| |exact F4]; lia|].
        widen_grows R.
      * exists h'.
        eapply grows_pre; [eapply heap_grows_mono; [| |exact F2]; lia|].
        rewrite (flat_map_ext _
                   (fun value => map (app (P ++ [t; l] ++ value)) (tails k))).
        -- widen_grows R.
        -- intros v. rewrite map_map. apply map_ext. intros s.
           by rewrite <- !app_assoc.
Qed.

(** [dfs] from an offset inside the buffer or at its end, whatever room
    there is: it returns, its files are the prefix followed by each
    combination of the remaining sections, and every store it can be
    observed in comes after the one it started in. *)
Lemma dfs_grows (h : heap) (idx total off : Z) :
  (buffer self < length h)%nat -> idx <= total ->
  0 <= off <= Zlen (buf self h) ->
  exists h',
    grows self (Z.to_nat off) (Z.to_nat (off + 257 * (total - idx)))
      (dfs self idx total off h) h
      (map (fun ss => take (Z.to_nat off) (buf self h)
                      ++ flat_map encode_section ss)
         (cross_product (Z.to_nat (total - idx)))) h'.
Proof.
  intros Hb Hle Hoff. unfold dfs.
  destruct (dfs_rec_grows (Z.to_nat (total - idx)) idx total off h)
    as (h' & R); [lia | assumption | assumption |].
  exists h'. rewrite tails_cross_product, map_map in R.
  by replace (Z.of_nat (Z.to_nat (total - idx))) with (total - idx) in R by lia.
Qed.

Lemma length_sections (ss : list TlvSection) :
  Forall section_ok ss ->
  Zlen (flat_map encode_section ss) = sections_size ss.
Proof.
  unfold Zlen. induction 1 as [|s ss (_ & _ & Hv & _) _ IH]; [reflexivity|].
  cbn [flat_map]. rewrite length_app. unfold encode_section at 1.
  cbn [length]. change (sections_size (s :: ss))
    with (2 + len s + sections_size ss).
  unfold Zlen in Hv. lia.
Qed.

End Growing.

(** C2, as the code has it.  Nothing in [dfs] checks an offset against the
    capacity.  Started at an offset inside the 65540 bytes of the buffer
    or at their end, with at most 255 sections to go, [dfs] carries out
    every write, of a tag/length pair or of value bytes, also where it
    reaches past the capacity: the slice assignment makes the buffer
    longer, and the enumeration goes on.  It raises no error and returns
    normally; its files are the prefix followed by each combination of the
    remaining sections; each file is read out of the buffer, which by then
    is at least as long as the file, never shorter than the capacity, and
    never longer than the sections reach.  With one section to go, a pair
    written past the capacity at any offset leaves the buffer longer than
    the capacity at the first yield.  A traversal started by
    [generate_all N] with [N] in [0, 255] never comes to such a write: it
    returns normally, and the buffer has its 65540 bytes in every store in
    which it is suspended or has stopped. *)
Theorem overrun_unguarded (self : Generator) (h : heap) :
  well_formed self h ->
  (forall idx total off : Z,
     idx <= total -> total - idx <= 255 -> 0 <= off <= capacity ->
     fst (snd (drain (dfs self idx total off h))) = Returned
     /\ emitted (dfs self idx total off h)
        = map (fun ss => take (Z.to_nat off) (buf self h)
                         ++ flat_map encode_section ss)
            (cross_product (Z.to_nat (total - idx)))
     /\ forall (r : loc) (hr : heap),
          In (r, hr) (fst (drain (dfs self idx total off h))) ->
          take (length (file_bytes (r, hr))) (buf self hr) = file_bytes (r, hr)
          /\ off + 2 * (total - idx) <= Zlen (file_bytes (r, hr))
          /\ Zlen (file_bytes (r, hr)) <= Zlen (buf self hr)
          /\ capacity <= Zlen (buf self hr)
             <= Z.max capacity (off + 257 * (total - idx)))
  /\ (forall idx off : Z,
        capacity < off + 2 ->
        exists (r : loc) (hr : heap) (k : heap -> Gen),
          dfs self idx (idx + 1) off h = Yield r hr k
          /\ capacity < Zlen (buf self hr))
  /\ (forall N : Z,
        0 <= N <= 255 ->
        fst (snd (drain (generate_all self N h))) = Returned
        /\ forall x : heap, In x (observed (generate_all self N h)) ->
             Zlen (buf self x) = capacity).
Proof.
  intros Hwf. pose proof Hwf as (Htl & _ & Hb & Hlen). split; [|split].
  - intros idx total off Hle Hdepth Hoff.
    destruct (dfs_grows self Htl h idx total off)
      as (h' & tr & D & M & A & _); [assumption | assumption | lia |].
    pose proof (dfs_rec_snapshots self (Z.to_nat (total - idx)) idx total
                  off h Hb) as [Hsnap _].
    fold (dfs self idx total off h) in Hsnap.
    unfold emitted. rewrite D in Hsnap |- *. cbn [fst snd] in Hsnap |- *.
    split; [reflexivity|]. split; [exact M|]. intros r hr Hin.
    rewrite List.Forall_forall in Hsnap, A.
    destruct (Hsnap _ Hin) as (n & Hn). cbn [fst snd] in Hn.
    destruct (A _ Hin) as (_ & HB & _). cbn [snd] in HB.
    assert (Hf : file_bytes (r, hr) = take n (buf self hr)).
    { unfold file_bytes. cbn [fst snd].
      by apply list_lookup_total_correct. }
    assert (Hmem : In (file_bytes (r, hr)) (map file_bytes tr))
      by (by apply in_map).
    rewrite M in Hmem.
    apply in_map_iff in Hmem as (ss & Hss & [Hl Hok]%in_cross_product).
    pose proof (sections_size_bounds ss Hok) as Hsize.
    assert (Hlen' : Zlen (file_bytes (r, hr)) = off + sections_size ss).
    { rewrite <- Hss. unfold Zlen at 1. rewrite length_app, length_take.
      rewrite Nat2Z.inj_add. fold (Zlen (flat_map encode_section ss)).
      rewrite length_sections by assumption. unfold Zlen in *. lia. }
    split; [rewrite Hf; apply take_length_take|]. split; [lia|].
    split.
    + rewrite Hf. unfold Zlen. rewrite length_take. lia.
    + unfold Zlen, capacity in *. lia.
  - intros idx off Hoff. unfold capacity in *.
    destruct (dfs_overrun self Htl h idx off) as (hr & k & E & Z1 & _);
      [assumption | lia | lia |].
    exists (length h), hr, k. split; [exact E|]. lia.
  - intros N HN.
    destruct (generate_all_runs self N h Hwf HN) as (h' & tr & D & _ & C).
    split; [by rewrite D|]. intros x Hx.
    apply (generate_all_observed self N h x Hwf) in Hx.
    by destruct (well_formed_frame _ _ _ _ _ Hwf Hx) as (_ & _ & _ & ?).
Qed.

Lemma overrun_unguarded_witness :
  (fst (snd (drain (dfs (fst fresh) 0 2 65539 (snd fresh)))) = Returned
   /\ emitted (dfs (fst fresh) 0 2 65539 (snd fresh))
      = map (fun ss => take (Z.to_nat 65539) (buf (fst fresh) (snd fresh))
                       ++ flat_map encode_section ss)
          (cross_product (Z.to_nat (2 - 0)))
   /\ forall (r : loc) (hr : heap),
        In (r, hr) (fst (drain (dfs (fst fresh) 0 2 65539 (snd fresh)))) ->
        take (length (file_bytes (r, hr))) (buf (fst fresh) hr)
        = file_bytes (r, hr)
        /\ 65539 + 2 * (2 - 0) <= Zlen (file_bytes (r, hr))
        /\ Zlen (file_bytes (r, hr)) <= Zlen (buf (fst fresh) hr)
        /\ capacity <= Zlen (buf (fst fresh) hr)
           <= Z.max capacity (65539 + 257 * (2 - 0)))
  /\ (exists (r : loc) (hr : heap) (k : heap -> Gen),
        dfs (fst fresh) 0 (0 + 1) 65539 (snd fresh) = Yield r hr k
        /\ capacity < Zlen (buf (fst fresh) hr))
  /\ (fst (snd (drain (generate_all (fst fresh) 255 (snd fresh)))) = Returned
      /\ forall x : heap,
           In x (observed (generate_all (fst fresh) 255 (snd fresh))) ->
           Zlen (buf (fst fresh) x) = capacity).
Proof.
  destruct (overrun_unguarded (fst fresh) (snd fresh) fresh_wf)
    as (H1 & H2 & H3).
  split; [apply (H1 0 2 65539); unfold capacity; lia|].
  split; [apply (H2 0 65539); unfold capacity; lia|].
  apply (H3 255). lia.
Defined.

(** C2 fails on the code.  On a new generator, [dfs 0 1 65539] has to write
    its first tag/length pair at offsets 65539 and 65540, past the capacity.
    It raises nothing: it yields a file of 65541 bytes, out of a buffer that
    has grown to 65541 bytes. *)
Lemma overrun_not_detected :
  capacity < 65539 + 2
  /\ ~ fails_fast (fst fresh) 0 1 65539 (snd fresh)
  /\ exists (r : loc) (hr : heap) (k : heap -> Gen),
       dfs (fst fresh) 0 1 65539 (snd fresh) = Yield r hr k
       /\ Zlen (buf (fst fresh) hr) = 65541
       /\ Zlen (file_bytes (r, hr)) = 65541.
Proof.
  pose proof fresh_wf as (Htl & _ & Hb & Hlen). unfold capacity in *.
  destruct (dfs_overrun (fst fresh) Htl (snd fresh) 0 65539)
    as (hr & k & E & Z1 & F); [assumption | lia | lia |].
  change (0 + 1) with 1 in E. split; [lia|]. split.
  - intros (e & h' & E'). rewrite E in E'. discriminate.
  - exists (length (snd fresh)), hr, k. split; [exact E|].
    rewrite F. split; lia.
Qed.

(** ** The first files with one section *)

Section FirstFiles.

Lemma all_sections_first :
  take 3 all_sections
  = [ {| tag := 0; len := 0; value := [] |};
      {| tag := 0; len := 1; value := [0] |};
      {| tag := 0; len := 1; value := [1] |} ].
Proof.
  assert (E2 : take 2 catalog = [(0, 0); (0, 1)]) by (vm_compute; reflexivity).
  assert (E : catalog = [(0, 0); (0, 1)] ++ drop 2 catalog)
    by (rewrite <- E2; symmetry; apply take_drop).
  unfold all_sections. rewrite E, flat_map_app.
  rewrite take_app_le by (vm_compute; lia).
  vm_compute. reflexivity.
Qed.

Lemma enumeration_1_first :
  take 3 (enumeration 1)
  = [ [0x0D; 0x90; 0xE1; 0xFE; 1; 0; 0];
      [0x0D; 0x90; 0xE1; 0xFE; 1; 0; 1; 0];
      [0x0D; 0x90; 0xE1; 0xFE; 1; 0; 1; 1] ].
Proof.
  unfold enumeration. change (Z.to_nat 1) with 1%nat.
  rewrite cross_product_S. cbn [cross_product map].
  rewrite (flat_map_singleton (fun s => [s])), map_map.
  rewrite List.firstn_map, all_sections_first. reflexivity.
Qed.

End FirstFiles.

(** C1. For a section count [N] in [0, 255] the files come out of
    [generate_all N] in the order of the nested loops that the
    specification describes ([enumeration]): section 0 outermost, within a
    section the (tag, length) pairs tag-major, and for a pair the value
    bytes as an odometer, last byte fastest.  Read as byte strings (tag0,
    length0, value0 ..., tag1, ...) the files are strictly increasing in
    the lexicographic order, and they are exactly the files with [N] well
    formed sections; the values that the inner loop of [dfs] goes through
    count up in base 256.  For [N = 1] the first three files are
    header+(tag 0, length 0), header+(tag 0, length 1, value [0]),
    header+(tag 0, length 1, value [1]). *)
Theorem emission_order (self : Generator) (h : heap) (N : Z) :
  well_formed self h -> 0 <= N <= 255 ->
  emitted (generate_all self N h) = enumeration N
  /\ StronglySorted lex_lt (emitted (generate_all self N h))
  /\ (forall f : list Z,
        In f (emitted (generate_all self N h))
        <-> exists ss : list TlvSection,
              Z.of_nat (length ss) = N
              /\ Forall section_ok ss
              /\ f = encode_file N ss)
  /\ (forall l : nat,
        product (range 256) l = map (be_digits l) (range (256 ^ l)%nat))
  /\ map file_bytes (pulls 3 (generate_all self 1 h))
     = [ [0x0D; 0x90; 0xE1; 0xFE; 1; 0; 0];
         [0x0D; 0x90; 0xE1; 0xFE; 1; 0; 1; 0];
         [0x0D; 0x90; 0xE1; 0xFE; 1; 0; 1; 1] ].
Proof.
  intros Hwf HN. rewrite generate_all_emitted by assumption.
  split; [reflexivity|]. split; [apply enumeration_sorted|].
  split; [|split; [apply product_counts|]].
  - intros f. unfold enumeration. rewrite in_map_iff. split.
    + intros (ss & <- & [Hl Hok]%in_cross_product).
      exists ss. split; [lia|]. by split.
    + intros (ss & Hl & Hok & ->). exists ss. split; [reflexivity|].
      apply in_cross_product. split; [lia|assumption].
  - rewrite pulls_drain, <- List.firstn_map.
    fold (emitted (generate_all self 1 h)).
    rewrite generate_all_emitted by (assumption || lia).
    apply enumeration_1_first.
Qed.

Lemma emission_order_witness :
  emitted (generate_all (fst fresh) 2 (snd fresh)) = enumeration 2
  /\ StronglySorted lex_lt (emitted (generate_all (fst fresh) 2 (snd fresh)))
  /\ (forall f : list Z,
        In f (emitted (generate_all (fst fresh) 2 (snd fresh)))
        <-> exists ss : list TlvSection,
              Z.of_nat (length ss) = 2
              /\ Forall section_ok ss
              /\ f = encode_file 2 ss)
  /\ (forall l : nat,
        product (range 256) l = map (be_digits l) (range (256 ^ l)%nat))
  /\ map file_bytes (pulls 3 (generate_all (fst fresh) 1 (snd fresh)))
     = [ [0x0D; 0x90; 0xE1; 0xFE; 1; 0; 0];
         [0x0D; 0x90; 0xE1; 0xFE; 1; 0; 1; 0];
         [0x0D; 0x90; 0xE1; 0xFE; 1; 0; 1; 1] ].
Proof.
  apply (emission_order (fst fresh) (snd fresh) 2); [apply fresh_wf | lia].
Defined.

(** ** The shared buffer at work

    Between the first and the second file with one section the buffer is
    overwritten in place, and the first file, read in the later store, is
    what it was. *)
Example buffer_reused_file_kept :
  match pulls 2 (generate_all (fst fresh) 1 (snd fresh)) with
  | [(r0, h0); (r1, h1)] =>
      take 8 (buf (fst fresh) h0) = [0x0D; 0x90; 0xE1; 0xFE; 1; 0; 0; 0]
      /\ take 8 (buf (fst fresh) h1) = [0x0D; 0x90; 0xE1; 0xFE; 1; 0; 1; 0]
      /\ h0 !!! r0 = [0x0D; 0x90; 0xE1; 0xFE; 1; 0; 0]
      /\ h1 !!! r0 = [0x0D; 0x90; 0xE1; 0xFE; 1; 0; 0]
      /\ h1 !!! r1 = [0x0D; 0x90; 0xE1; 0xFE; 1; 0; 1; 0]
      /\ (r0, r1, buffer (fst fresh)) = (1%nat, 2%nat, 0%nat)
  | _ => False
  end.
Proof. vm_compute. repeat split. Qed.

(** * The runner and further properties of the generator *)

Section Names.

Lemma numeric_pretty_N_go (x : N) : forall s : string,
  numeric s = true -> numeric (pretty_N_go x s) = true.
Proof.
  induction (N.lt_wf_0 x) as [x _ IH]; intros s Hs.
  assert (x = 0 \/ 0 < x)%N as [->|Hx] by lia.
  - by rewrite pretty_N_go_0.
  - rewrite pretty_N_go_step by done. apply IH; [by apply N.div_lt|].
    simpl. rewrite Hs, andb_true_r.
    unfold pretty_N_char. by repeat case_match.
Qed.

Lemma numeric_pretty_N (x : N) : numeric (pretty x) = true.
Proof.
  unfold pretty, pretty_N. case_decide; [reflexivity|].
  by apply numeric_pretty_N_go.
Qed.

Lemma numeric_pretty_Z (z : Z) : numeric (pretty z) = true.
Proof.
  destruct z as [|p|p]; [reflexivity|apply numeric_pretty_N|].
  unfold pretty, pretty_Z. simpl.
  apply (numeric_pretty_N (Npos p)).
Qed.



Lemma dirname_app_None (a b : string) :
  dirname a = None -> dirname b = None -> dirname (a +:+ b) = None.
Proof.
  induction a as [|c a IH]; simpl; [done|]. intros Ha Hb.
  destruct (dirname a); [done|]. rewrite IH by done.
  by destruct (Ascii.eqb c "/").
Qed.

Lemma dirname_numeric (s : string) : numeric s = true -> dirname s = None.
Proof.
  induction s as [|c s IH]; simpl; [done|].
  intros [Hc Hs]%andb_true_iff. rewrite IH by done.
  destruct (Ascii.eqb_spec c "/") as [->|]; done.
Qed.

Lemma dirname_slash (d base : string) :
  dirname base = None -> dirname (d +:+ String "/" base) = Some d.
Proof.
  intros Hb. induction d as [|c d IH]; simpl; [by rewrite Hb|by rewrite IH].
Qed.

Lemma dirname_filename (count idx : Z) :
  dirname (filename count idx) = Some "output"%string.
Proof.
  unfold filename.
  change ("output/file_" +:+ ?s)%string
    with ("output" +:+ String "/" ("file_" +:+ s))%string.
  apply dirname_slash.
  repeat (apply dirname_app_None;
          [first [reflexivity | apply dirname_numeric, numeric_pretty_Z]|]).
  reflexivity.
Qed.


End Names.

Section Saving.

Variable self : Runner.







End Saving.

Section FirstTen.




Lemma saved_zero : saved 0 = [header 0].
Proof. reflexivity. Qed.




End FirstTen.

Section Running.

Variable self : Runner.






End Running.

Section SavedFiles.


Lemma saved_lookup_zero (k : nat) (f : list Z) :
  saved 0 !! k = Some f <-> k = 0%nat /\ f = header 0.
Proof.
  rewrite saved_zero. destruct k as [|k]; simpl; split.
  - by intros [= <-].
  - by intros [_ ->].
  - done.
  - by intros [? _].
Qed.



End SavedFiles.




Section MoreRunning.

Lemma save_unfold (self : Runner) (buffer : loc) (count idx : Z) (h : heap)
  (fs : gmap string node) :
  save self buffer count idx h fs
  = match fs !! "output"%string with
    | None => inl FileNotFoundError
    | Some (File _) => inl NotADirectoryError
    | Some Dir =>
        match fs !! filename count idx with
        | Some Dir => inl IsADirectoryError
        | _ => inr (<[filename count idx := File (h !!! buffer)]> fs)
        end
    end.
Proof. unfold save, write_file. rewrite dirname_filename. reflexivity. Qed.

Lemma Runner_init_ok (gen : Generator) (fs : gmap string node) :
  exists fs',
    Runner_init gen fs = inr ({| generator := gen |}, fs')
    /\ is_Some (fs' !! "output"%string)
    /\ (is_Some (fs !! "output"%string) -> fs' = fs)
    /\ (fs !! "output"%string = None -> fs' !! "output"%string = Some Dir)
    /\ (forall p, p <> "output"%string -> fs' !! p = fs !! p).
Proof.
  unfold Runner_init, path_exists, makedirs.
  destruct (fs !! "output"%string) as [n|] eqn:E.
  - rewrite bool_decide_true by eauto. simpl. exists fs.
    repeat split; eauto. done.
  - rewrite bool_decide_false by (by intros [? ?]). simpl.
    exists (<["output"%string := Dir]> fs). split; [reflexivity|].
    rewrite lookup_insert_eq. repeat split; eauto.
    + by intros [? ?].
    + intros p Hp. by rewrite lookup_insert_ne.
Qed.






Lemma range_head (n : nat) : range (S n) = 0 :: map Z.succ (range n).
Proof.
  unfold range. cbn [seq map]. f_equal. rewrite <- seq_shift, !map_map.
  apply map_ext. intros k. lia.
Qed.

End MoreRunning.










(** X5. When ["output"] is not a directory, [run] stops at its first
    [save], with [FileNotFoundError] if the name does not exist and
    [NotADirectoryError] if it is a regular file; by then it has printed
    the first progress line and has written nothing. *)
Theorem run_without_directory (self : Runner) (w : World) :
  well_formed (generator self) (store w) ->
  files w !! "output"%string <> Some Dir ->
  exists w',
    run self w
    = Err (OsExn (match files w !! "output"%string with
                  | None => FileNotFoundError
                  | Some _ => NotADirectoryError
                  end)) w'
    /\ files w' = files w
    /\ stdout w' = stdout w ++ [progress_line 0].
Proof.
  intros Hwf Hout. unfold run. rewrite range_head. cbn [for_counts].
  fold (progress_line 0).
  destruct (generate_all_first_yield (generator self) 0
              (store (print (progress_line 0) w)) Hwf) as (r & hr & k & ->);
    [lia|].
  cbn [for_files]. rewrite save_unfold. cbn [files print].
  destruct (files w !! "output"%string) as [[|d]|]; [done|..];
    eexists; (split; [reflexivity|]); by split.
Qed.

Lemma run_without_directory_witness :
  exists w',
    run fresh_runner {| store := snd fresh; files := ∅; stdout := [] |}
    = Err (OsExn (match (∅ : gmap string node) !! "output"%string with
                  | None => FileNotFoundError
                  | Some _ => NotADirectoryError
                  end)) w'
    /\ files w' = ∅
    /\ stdout w' = [] ++ [progress_line 0].
Proof.
  apply (run_without_directory fresh_runner
           {| store := snd fresh; files := ∅; stdout := [] |});
    [apply fresh_wf | done].
Defined.

(** X6. When ["output"] exists as a regular file, the program does not
    repair it: [Runner()] sees that the path exists and creates nothing,
    and the run stops at the first [save] with [NotADirectoryError],
    with the file system as it was. *)
Theorem main_output_is_file (w : World) (data : list Z) :
  files w !! "output"%string = Some (File data) ->
  exists w',
    main w = Err (OsExn NotADirectoryError) w'
    /\ files w' = files w
    /\ stdout w' = stdout w ++ [progress_line 0].
Proof.
  intros Hout. unfold main.
  pose proof (Generator_init_wf (store w)) as Hwf.
  destruct (Generator_init (store w)) as [gen h]. cbn [fst snd] in Hwf.
  destruct (Runner_init_ok gen (files w)) as (fs & -> & _ & Hsame & _).
  rewrite Hsame by (by rewrite Hout).
  unfold run. rewrite range_head. cbn [for_counts].
  fold (progress_line 0).
  destruct (generate_all_first_yield gen 0 h Hwf) as (r & hr & k & E); [lia|].
  cbn [store print generator]. rewrite E.
  cbn [for_files]. rewrite save_unfold. cbn [files print]. rewrite Hout.
  eexists. split; [reflexivity|]. by split.
Qed.

Lemma main_output_is_file_witness :
  exists w',
    main blocked_world = Err (OsExn NotADirectoryError) w'
    /\ files w' = files blocked_world
    /\ stdout w' = stdout blocked_world ++ [progress_line 0].
Proof.
  apply (main_output_is_file blocked_world [1]). apply lookup_singleton_eq.
Defined.

Section GeneratorFacts.

Lemma lex_lt_irrefl (a : list Z) : ~ lex_lt a a.
Proof.
  induction a as [|x a IH]; intros H; inversion H; subst; [lia|done].
Qed.

Lemma StronglySorted_NoDup (l : list (list Z)) :
  StronglySorted lex_lt l -> NoDup l.
Proof.
  induction 1 as [|a l S IH Ha]; constructor; [|exact IH].
  intros Hin%list_elem_of_In. rewrite List.Forall_forall in Ha.
  by apply Ha, lex_lt_irrefl in Hin.
Qed.

Lemma sections_size_replicate (n : nat) (s : TlvSection) :
  sections_size (replicate n s) = Z.of_nat n * (2 + len s).
Proof. induction n as [|n IH]; simpl; lia. Qed.

Lemma Forall_replicate_ok (n : nat) (s : TlvSection) :
  section_ok s -> Forall section_ok (replicate n s).
Proof.
  intros Hs. apply List.Forall_forall. intros s' Hs'%list_elem_of_In.
  by apply elem_of_replicate in Hs' as [-> _].
Qed.

End GeneratorFacts.



(** X11. For a section count [N] in [0, 255], [generate_all N] emits no
    file twice. *)
Theorem emitted_no_duplicates (self : Generator) (h : heap) (N : Z) :
  well_formed self h -> 0 <= N <= 255 ->
  NoDup (emitted (generate_all self N h)).
Proof.
  intros Hwf HN. rewrite generate_all_emitted by assumption.
  apply StronglySorted_NoDup, enumeration_sorted.
Qed.

Lemma emitted_no_duplicates_witness :
  NoDup (emitted (generate_all (fst fresh) 2 (snd fresh))).
Proof.
  apply (emitted_no_duplicates (fst fresh) (snd fresh) 2);
    [apply fresh_wf | lia].
Defined.

(** X12. For a section count [N] in [0, 255], every file of
    [generate_all N] has between [5 + 2 * N] and [5 + 257 * N] bytes, and
    not more than the buffer of [byte_array_init] holds; both bounds are
    reached by an emitted file. *)
Theorem file_size_bounds (self : Generator) (h : heap) (N : Z) :
  well_formed self h -> 0 <= N <= 255 ->
  (forall f : list Z,
     In f (emitted (generate_all self N h)) ->
     5 + 2 * N <= Zlen f <= 5 + 257 * N /\ Zlen f <= Zlen byte_array_init)
  /\ (exists f : list Z,
        In f (emitted (generate_all self N h)) /\ Zlen f = 5 + 2 * N)
  /\ (exists f : list Z,
        In f (emitted (generate_all self N h)) /\ Zlen f = 5 + 257 * N).
Proof.
  intros Hwf HN. rewrite generate_all_emitted by assumption.
  unfold enumeration.
  assert (Hcap : Zlen byte_array_init = 65540).
  { unfold Zlen, byte_array_init. rewrite length_replicate. lia. }
  split; [|split].
  - intros f (ss & <- & [Hl Hok]%in_cross_product)%in_map_iff.
    rewrite length_encode_file by assumption.
    pose proof (sections_size_bounds ss Hok). lia.
  - exists (encode_file N
              (replicate (Z.to_nat N) {| tag := 0; len := 0; value := [] |})).
    assert (Hok : section_ok {| tag := 0; len := 0; value := [] |})
      by (repeat split; simpl; try lia; constructor).
    split.
    + apply in_map, in_cross_product.
      split; [apply length_replicate|by apply Forall_replicate_ok].
    + rewrite length_encode_file by (by apply Forall_replicate_ok).
      rewrite sections_size_replicate. simpl. lia.
  - exists (encode_file N
              (replicate (Z.to_nat N)
                 {| tag := 0; len := 255; value := replicate 255 0 |})).
    assert (Hok : section_ok
                    {| tag := 0; len := 255; value := replicate 255 0 |}).
    { unfold section_ok. cbn [tag len value].
      split; [lia|]. split; [lia|]. split.
      - unfold Zlen. rewrite length_replicate. lia.
      - apply List.Forall_forall. intros x Hx%list_elem_of_In.
        apply elem_of_replicate in Hx as [-> _]. lia. }
    split.
    + apply in_map, in_cross_product.
      split; [apply length_replicate|by apply Forall_replicate_ok].
    + rewrite length_encode_file by (by apply Forall_replicate_ok).
      rewrite sections_size_replicate. cbn [len]. lia.
Qed.

Lemma file_size_bounds_witness :
  (forall f : list Z,
     In f (emitted (generate_all (fst fresh) 255 (snd fresh))) ->
     5 + 2 * 255 <= Zlen f <= 5 + 257 * 255 /\ Zlen f <= Zlen byte_array_init)
  /\ (exists f : list Z,
        In f (emitted (generate_all (fst fresh) 255 (snd fresh)))
        /\ Zlen f = 5 + 2 * 255)
  /\ (exists f : list Z,
        In f (emitted (generate_all (fst fresh) 255 (snd fresh)))
        /\ Zlen f = 5 + 257 * 255).
Proof.
  apply (file_size_bounds (fst fresh) (snd fresh) 255); [apply fresh_wf | lia].
Defined.

Section FileCount.

Lemma length_flat_map_const {A B : Type} (f : A -> list B) (c : Z)
  (l : list A) :
  (forall x, In x l -> Z.of_nat (length (f x)) = c) ->
  Z.of_nat (length (flat_map f l)) = Z.of_nat (length l) * c.
Proof.
  induction l as [|a l IH]; intros Hc; [reflexivity|].
  cbn [flat_map]. rewrite length_app, Nat2Z.inj_add, IH.
  - rewrite (Hc a) by (by left). cbn [length]. lia.
  - intros x Hx. apply Hc. by right.
Qed.

Lemma length_range (n : nat) : length (range n) = n.
Proof. unfold range. by rewrite length_map, length_seq. Qed.

Lemma length_odometer (n : nat) :
  Z.of_nat (length (odometer n)) = 256 ^ Z.of_nat n.
Proof.
  induction n as [|n IH]; [reflexivity|].
  cbn [odometer].
  rewrite (length_flat_map_const _ (256 ^ Z.of_nat n)).
  - rewrite length_range, (Nat2Z.inj_succ n), Z.pow_succ_r by lia.
    change (Z.of_nat 256) with 256. lia.
  - intros x _. by rewrite length_map.
Qed.

Lemma length_flat_map_map {A B C : Type} (g : A -> B -> C) (F : A -> list B)
  (l : list A) :
  length (flat_map (fun x => map (g x) (F x)) l) = length (flat_map F l).
Proof.
  induction l as [|a l IH]; [reflexivity|].
  cbn [flat_map]. by rewrite !length_app, length_map, IH.
Qed.

(** The values of all lengths below [n]: a geometric sum. *)
Lemma length_values_below (n : nat) :
  255 * Z.of_nat (length (flat_map (fun l => odometer (Z.to_nat l)) (range n)))
  = 256 ^ Z.of_nat n - 1.
Proof.
  induction n as [|n IH]; [reflexivity|].
  replace (S n) with (n + 1)%nat at 1 by lia.
  rewrite range_add, flat_map_app, length_app, Nat2Z.inj_add.
  change (range 1) with [0]. cbn [map flat_map]. rewrite app_nil_r.
  rewrite Z.add_0_r, Nat2Z.id, length_odometer.
  rewrite (Nat2Z.inj_succ n), Z.pow_succ_r by lia. lia.
Qed.

Lemma length_all_sections : Z.of_nat (length all_sections) = section_count.
Proof.
  unfold all_sections, catalog, section_count.
  rewrite flat_map_flat_map.
  rewrite (length_flat_map_const _
             (Z.of_nat (length (flat_map (fun l => odometer (Z.to_nat l))
                                  (range 256))))).
  - rewrite length_range. apply Z.div_unique_exact; [lia|].
    pose proof (length_values_below 256) as E.
    change (Z.of_nat 256) with 256 in *. lia.
  - intros t _. rewrite flat_map_map. cbn [fst snd].
    by rewrite (length_flat_map_map (fun l => Build_TlvSection t l)
                  (fun l => odometer (Z.to_nat l))).
Qed.



Lemma length_cross_product (n : nat) :
  Z.of_nat (length (cross_product n)) = section_count ^ Z.of_nat n.
Proof.
  induction n as [|n IH]; [reflexivity|].
  rewrite cross_product_S.
  rewrite (length_flat_map_const _ (section_count ^ Z.of_nat n)).
  - rewrite length_all_sections, (Nat2Z.inj_succ n), Z.pow_succ_r by lia.
    reflexivity.
  - intros s _. by rewrite length_map.
Qed.

End FileCount.

(** X13. For a section count [N] in [0, 255], [generate_all N] emits
    [(256 * (256 ^ 256 - 1) / 255) ^ N] files: one section can be written
    in [256 * (1 + 256 + ... + 256 ^ 255)] ways. *)
Theorem number_of_files (self : Generator) (h : heap) (N : Z) :
  well_formed self h -> 0 <= N <= 255 ->
  Z.of_nat (length (emitted (generate_all self N h)))
  = (256 * (256 ^ 256 - 1) / 255) ^ N.
Proof.
  intros Hwf HN. rewrite generate_all_emitted by assumption.
  unfold enumeration. rewrite length_map, length_cross_product.
  rewrite Z2Nat.id by lia. reflexivity.
Qed.

Lemma number_of_files_witness :
  Z.of_nat (length (emitted (generate_all (fst fresh) 1 (snd fresh))))
  = (256 * (256 ^ 256 - 1) / 255) ^ 1.
Proof.
  apply (number_of_files (fst fresh) (snd fresh) 1); [apply fresh_wf | lia].
Defined.

(** X14. [sample_init] has 65536 entries, and the pair (tag, length) of two
    bytes is its entry number [256 * tag + length]: every pair once, tag
    outer, length inner. *)
Theorem sample_init_tag_major (t l : Z) :
  0 <= t < 256 -> 0 <= l < 256 ->
  Z.of_nat (length sample_init) = 65536
  /\ sample_init !! Z.to_nat (256 * t + l) = Some [t; l].
Proof.
  intros Ht Hl. unfold sample_init. rewrite product_counts.
  assert (E : Z.of_nat (256 ^ 2) = 65536)
    by (rewrite Nat2Z.inj_pow; reflexivity).
  split; [by rewrite length_map, length_range|].
  unfold range. change (map ?g ?x) with (g <$> x).
  rewrite !list_lookup_fmap, lookup_seq_lt by lia.
  cbn [fmap option_fmap option_map be_digits Nat.add].
  rewrite Z2Nat.id by lia.
  change (256 ^ Z.of_nat 1) with 256. change (256 ^ Z.of_nat 0) with 1.
  rewrite Z.div_1_r.
  replace ((256 * t + l) / 256) with t
    by (apply Z.div_unique with l; lia).
  replace ((256 * t + l) mod 256) with l
    by (apply Z.mod_unique with t; lia).
  reflexivity.
Qed.

Lemma sample_init_tag_major_witness :
  Z.of_nat (length sample_init) = 65536
  /\ sample_init !! Z.to_nat (256 * 3 + 4) = Some [3; 4].
Proof. apply (sample_init_tag_major 3 4); lia. Defined.

(** X15. [dfs] has no error path, however short the buffer is (any length
    up to the capacity): with at most 255 sections in all, started at an
    offset inside the buffer or at its end, it returns normally when
    pulled to its end, also where its writes fall past the end of the
    buffer.  In every store in which it is suspended or has stopped the
    buffer is not shorter than it was, and not longer than
    [offset + 257 * (total_sections - current_sec_idx)] unless it was. *)
Theorem dfs_never_raises (self : Generator) (h : heap) (idx total off : Z) :
  tl_pairs self = sample_init ->
  (buffer self < length h)%nat ->
  Zlen (buf self h) <= capacity ->
  0 <= idx <= total -> total <= 255 ->
  0 <= off <= Zlen (buf self h) ->
  fst (snd (drain (dfs self idx total off h))) = Returned
  /\ forall x : heap,
       In x (observed (dfs self idx total off h)) ->
       Zlen (buf self h) <= Zlen (buf self x)
       <= Z.max (Zlen (buf self h)) (off + 257 * (total - idx)).
Proof.
  intros Htl Hb _ Hidx _ Hoff.
  destruct (dfs_grows self Htl h idx total off)
    as (h' & tr & D & _ & A & F); [assumption | lia | assumption |].
  unfold observed. rewrite D. cbn [fst snd]. split; [reflexivity|].
  intros x Hx. apply in_app_or in Hx.
  assert (G : heap_grows self (Z.to_nat off)
                (Z.to_nat (off + 257 * (total - idx))) h x).
  { destruct Hx as [Hx|[<-|[]]]; [|exact F].
    apply in_map_iff in Hx as (p & <- & Hp).
    rewrite List.Forall_forall in A. by apply A. }
  destruct G as (_ & B & _). unfold Zlen. lia.
Qed.

Lemma dfs_never_raises_witness :
  fst (snd (drain (dfs {| tl_pairs := sample_init; buffer := 0;
                          magic := get_magic |} 0 2 3 [[1; 2; 3]])))
  = Returned
  /\ forall x : heap,
       In x (observed (dfs {| tl_pairs := sample_init; buffer := 0;
                              magic := get_magic |} 0 2 3 [[1; 2; 3]])) ->
       Zlen (buf {| tl_pairs := sample_init; buffer := 0;
                    magic := get_magic |} [[1; 2; 3]])
       <= Zlen (buf {| tl_pairs := sample_init; buffer := 0;
                       magic := get_magic |} x)
       <= Z.max (Zlen (buf {| tl_pairs := sample_init; buffer := 0;
                              magic := get_magic |} [[1; 2; 3]]))
            (3 + 257 * (2 - 0)).
Proof.
  apply (dfs_never_raises
           {| tl_pairs := sample_init; buffer := 0; magic := get_magic |}
           [[1; 2; 3]] 0 2 3);
    [reflexivity | simpl; lia | unfold Zlen, capacity; simpl; lia | lia | lia
    | unfold Zlen; simpl; lia].
Defined.
